(** * ESP32 camera and audio relay server: a shallow embedding of [server.py]

    The module-level globals of the Flask application (the two latest-value
    slots and the two connection counters) form an explicit state record.
    Every handler is a computation in a small state monad over that record;
    each reading of [time.time()] is an argument of the handler that takes
    it.  Timestamps are seconds since the epoch, modelled as rationals
    (every finite Python float is one); [bytes] values are lists of bytes
    and [str] values are strings. *)

From Stdlib Require Import ZArith QArith Lqa Lia Ascii String List Sorted.
From Stdlib.Strings Require Import Byte.
From stdpp Require Import base option list strings pretty.
From Stdlib Require Import Qround.

Local Open Scope Z_scope.

(** ** Byte strings and text *)

Definition bytes : Type := list byte.

(** An ASCII [b'...'] literal. *)
Definition b (s : string) : bytes := list_byte_of_string s.

Definition CRLF : bytes := [x0d; x0a].

(** The two-character text ["\n\n"] that ends a server-sent event. *)
Definition LFLF : string :=
  String (ascii_of_byte x0a) (String (ascii_of_byte x0a) EmptyString).

(** Python truthiness of a [bytes] object: [not data] holds exactly for
    the empty one. *)
Definition truthy (data : bytes) : bool :=
  match data with
  | [] => false
  | _ :: _ => true
  end.

(** ** [base64.b64encode]: standard alphabet, [=] padding (RFC 4648) *)

Module Base64.

Definition alphabet : bytes :=
  b "ABCDEFGHIJKLMNOPQRSTUVWXYZabcdefghijklmnopqrstuvwxyz0123456789+/".

Definition pad : byte := x3d.

(** The character for a six-bit group. *)
Definition sextet (n : N) : byte := nth (N.to_nat n) alphabet pad.

Definition hi6 (x : N) : N := N.shiftr x 2.
Definition lo2_hi4 (x y : N) : N :=
  N.lor (N.shiftl (N.land x 3) 4) (N.shiftr y 4).
Definition lo4_hi2 (y z : N) : N :=
  N.lor (N.shiftl (N.land y 15) 2) (N.shiftr z 6).
Definition lo6 (z : N) : N := N.land z 63.

Fixpoint b64encode (data : bytes) : bytes :=
  match data with
  | [] => []
  | [x] =>
      let x := Byte.to_N x in
      [sextet (hi6 x); sextet (lo2_hi4 x 0); pad; pad]
  | [x; y] =>
      let x := Byte.to_N x in
      let y := Byte.to_N y in
      [sextet (hi6 x); sextet (lo2_hi4 x y); sextet (lo4_hi2 y 0); pad]
  | x :: y :: z :: rest =>
      let x := Byte.to_N x in
      let y := Byte.to_N y in
      let z := Byte.to_N z in
      sextet (hi6 x) :: sextet (lo2_hi4 x y) :: sextet (lo4_hi2 y z)
        :: sextet (lo6 z) :: b64encode rest
  end.

(** [bytes.decode('utf-8')] on the ASCII output of [b64encode]. *)
Definition decode (s : bytes) : string := string_of_list_byte s.

End Base64.

(** ** Comparisons of timestamps *)

Definition Qltb (x y : Q) : bool :=
  match (x ?= y)%Q with
  | Lt => true
  | _ => false
  end.

(** A Python float that may be [float('inf')]. *)
Inductive pyfloat : Type :=
| Fin (q : Q)
| Inf.

(** [x > y] for a possibly infinite [x] and a finite [y]. *)
Definition gtb (x : pyfloat) (y : Q) : bool :=
  match x with
  | Fin q => Qltb y q
  | Inf => true
  end.

(** [int(x)]: truncation toward zero.  [int(float('inf'))] raises
    [OverflowError]; [status] only converts an age behind its
    [has_frame] / [has_audio] test, where the age is finite. *)
Definition int (x : pyfloat) : Z :=
  match x with
  | Fin q => Z.quot (Qnum q) (Zpos (Qden q))
  | Inf => 0
  end.

(** ** Configuration and global variables *)

Definition FRAME_EXPIRY_SECONDS : Q := 10.
Definition AUDIO_EXPIRY_SECONDS : Q := 5.

Record Globals : Type := mkGlobals {
  current_frame : option bytes;
  frame_time : Q;
  current_audio : option bytes;
  audio_time : Q;
  clients_count : Z;
  audio_clients_count : Z
}.

(** The values the module assigns at import time. *)
Definition initial : Globals :=
  {| current_frame := None; frame_time := 0;
     current_audio := None; audio_time := 0;
     clients_count := 0; audio_clients_count := 0 |}.

Definition set_frame (data : bytes) (t : Q) (g : Globals) : Globals :=
  {| current_frame := Some data; frame_time := t;
     current_audio := current_audio g; audio_time := audio_time g;
     clients_count := clients_count g;
     audio_clients_count := audio_clients_count g |}.

Definition set_audio (data : bytes) (t : Q) (g : Globals) : Globals :=
  {| current_frame := current_frame g; frame_time := frame_time g;
     current_audio := Some data; audio_time := t;
     clients_count := clients_count g;
     audio_clients_count := audio_clients_count g |}.

Definition add_clients (d : Z) (g : Globals) : Globals :=
  {| current_frame := current_frame g; frame_time := frame_time g;
     current_audio := current_audio g; audio_time := audio_time g;
     clients_count := clients_count g + d;
     audio_clients_count := audio_clients_count g |}.

Definition add_audio_clients (d : Z) (g : Globals) : Globals :=
  {| current_frame := current_frame g; frame_time := frame_time g;
     current_audio := current_audio g; audio_time := audio_time g;
     clients_count := clients_count g;
     audio_clients_count := audio_clients_count g + d |}.

(** ** Handlers as state transformers over the globals *)

Definition M (A : Type) : Type := Globals -> A * Globals.

Definition ret {A : Type} (a : A) : M A := fun g => (a, g).

Definition bind {A B : Type} (m : M A) (k : A -> M B) : M B :=
  fun g => let (a, g') := m g in k a g'.

Definition read : M Globals := fun g => (g, g).

Definition modify (f : Globals -> Globals) : M unit := fun g => (tt, f g).

Notation "x <- m ;; k" := (bind m (fun x => k))
  (at level 100, m at next level, right associativity).
Notation "m ;;; k" := (bind m (fun _ => k))
  (at level 100, right associativity).

(** An HTTP response of an upload route: body text and status code. *)
Definition Response : Type := string * Z.

(** [POST /upload].  The [logger.debug] line only reads. *)
Definition upload (data : bytes) (now : Q) : M Response :=
  if negb (truthy data) then ret ("No data"%string, 400)
  else
    modify (set_frame data now) ;;;
    ret ("OK"%string, 200).

(** [POST /upload-audio]. *)
Definition upload_audio (data : bytes) (now : Q) : M Response :=
  if negb (truthy data) then ret ("No data"%string, 400)
  else
    modify (set_audio data now) ;;;
    ret ("OK"%string, 200).

(** The snapshot a reader takes under the slot's lock. *)
Definition get_frame : M (option bytes * Q) :=
  g <- read ;; ret (current_frame g, frame_time g).

Definition get_audio : M (option bytes * Q) :=
  g <- read ;; ret (current_audio g, audio_time g).

(** ** Generators

    A generator object is created by calling [gen_frames()] or
    [gen_audio()]: nothing of its body runs until the first [next()].
    Afterwards it is suspended at its [yield] until it is resumed or
    terminated; termination raises at the [yield], inside the [try], so
    the [finally] block runs. *)

Inductive GenState : Type :=
| Created
| Suspended
| Finished.

#[global] Instance GenState_eq_dec : EqDecision GenState.
Proof. solve_decision. Defined.

(** How a generator is terminated: [close()] raises [GeneratorExit] at the
    [yield] (the WSGI server closes the response iterable when the client
    goes away or a write fails); [throw(exc)] raises [exc] there. *)
Inductive Exit : Type :=
| GeneratorExit
| Thrown.

Definition frame_header : bytes :=
  b "--frame" ++ CRLF ++ b "Content-Type: image/jpeg" ++ CRLF ++ CRLF.

(** One pass of the [while True] body of [gen_frames], up to its [yield];
    [now] is the clock read in the test. *)
Definition gen_frames_iter (now : Q) : M bytes :=
  snapshot <- get_frame ;;
  let (frame, last_frame_time) := snapshot in
  match frame with
  | Some frame =>
      if Qltb (now - last_frame_time) FRAME_EXPIRY_SECONDS
      then ret (frame_header ++ frame ++ CRLF)
      else ret (frame_header ++ CRLF)
  | None => ret (frame_header ++ CRLF)
  end.

(** [next()] on a [gen_frames()] generator: the yielded part, or [None]
    for [StopIteration]. *)
Definition gen_frames_next (st : GenState) (now : Q)
  : M (option bytes * GenState) :=
  match st with
  | Created =>
      modify (add_clients 1) ;;;
      part <- gen_frames_iter now ;;
      ret (Some part, Suspended)
  | Suspended =>
      part <- gen_frames_iter now ;;
      ret (Some part, Suspended)
  | Finished => ret (None, Finished)
  end.

(** Termination of a [gen_frames()] generator.  The [finally] block runs
    only when the body was entered; both kinds of exit take it. *)
Definition gen_frames_exit (st : GenState) (how : Exit) : M GenState :=
  match st with
  | Created => ret Finished
  | Suspended =>
      match how with
      | GeneratorExit | Thrown => modify (add_clients (-1))
      end ;;;
      ret Finished
  | Finished => ret Finished
  end.

(** A stand-in for the two formatting functions of the standard library,
    to run the model on: numerator, a slash, denominator. *)
Definition show_q (q : Q) : string :=
  pretty (Qnum q) +:+ "/" +:+ pretty (Zpos (Qden q)).

(** A state with a frame and a chunk both stored at clock reading 100. *)
Definition both_at_100 : Globals :=
  set_audio (b "pcm") 100 (set_frame (b "jpg") 100 initial).

(** ** More of the configuration *)

(** [MAX_CLIENTS]: assigned at line 26 and read nowhere. *)
Definition MAX_CLIENTS : Z := 10.

(** ** Decoding base64

    The transformation that undoes [b64encode] on padded text, which is
    what a decoder such as the viewer's [atob(data.audio)] computes on
    the text the server sends. *)

Module Base64Inverse.

Fixpoint index_in (c : byte) (l : bytes) : N :=
  match l with
  | [] => 0
  | d :: rest => if Byte.eqb c d then 0 else N.succ (index_in c rest)
  end.

(** The six-bit group a character stands for. *)
Definition unsextet (c : byte) : N := index_in c Base64.alphabet.

Definition byte_of (n : N) : byte :=
  match Byte.of_N n with
  | Some x => x
  | None => x00
  end.

Definition first (n1 n2 : N) : N := N.lor (N.shiftl n1 2) (N.shiftr n2 4).
Definition second (n2 n3 : N) : N :=
  N.lor (N.shiftl (N.land n2 15) 4) (N.shiftr n3 2).
Definition third (n3 n4 : N) : N := N.lor (N.shiftl (N.land n3 3) 6) n4.

Fixpoint b64decode (s : bytes) : bytes :=
  match s with
  | c1 :: c2 :: c3 :: c4 :: rest =>
      let n1 := unsextet c1 in
      let n2 := unsextet c2 in
      let n3 := unsextet c3 in
      let n4 := unsextet c4 in
      if Byte.eqb c3 Base64.pad then [byte_of (first n1 n2)]
      else if Byte.eqb c4 Base64.pad
      then [byte_of (first n1 n2); byte_of (second n2 n3)]
      else byte_of (first n1 n2) :: byte_of (second n2 n3)
             :: byte_of (third n3 n4) :: b64decode rest
  | _ => []
  end.

End Base64Inverse.

(** The numbers below [n], for checking a property of small numbers by
    running it on each. *)
Definition below (n : nat) : list N := map N.of_nat (seq 0 n).

Definition all_below (n : nat) (p : N -> bool) : bool := forallb p (below n).

(** ** The viewer page's [playAudioData]

    The script embedded in [index.html] turns the character codes of the
    decoded chunk into samples, two characters per sample.  With an odd
    number of characters the loop's last pass writes past the end of
    [pcmData], which a typed array ignores, so the trailing character is
    dropped.  [signedSample / 32768.0] is exact in floating point for a
    16-bit integer and is modelled as a rational. *)

Module Viewer.

(** [(c0 & 0xff) | ((c1 & 0xff) << 8)]. *)
Definition sample (c0 c1 : Z) : Z :=
  Z.lor (Z.land c0 255) (Z.shiftl (Z.land c1 255) 8).

(** [sample > 0x7fff ? sample - 0x10000 : sample]. *)
Definition signedSample (sample : Z) : Z :=
  if 32767 <? sample then sample - 65536 else sample.

Fixpoint signedSamples (audioData : list Z) : list Z :=
  match audioData with
  | c0 :: c1 :: rest => signedSample (sample c0 c1) :: signedSamples rest
  | _ => []
  end.

Definition pcmData (audioData : list Z) : list Q :=
  map (fun signedSample => signedSample # 32768) (signedSamples audioData).

End Viewer.

Section Relay.

(** [str] of a float, as an f-string inserts it. *)
Variable float_str : Q -> string.

(** [datetime.datetime.fromtimestamp(t).strftime('%H:%M:%S')]: depends
    on the time zone of the host. *)
Variable strftime_HMS : Q -> string.

Definition audio_event (audio_b64 : string) : string :=
  "data: {'audio': '" +:+ audio_b64 +:+ "'}" +:+ LFLF.

Definition heartbeat_event (t : Q) : string :=
  "data: {'heartbeat': " +:+ float_str t +:+ "}" +:+ LFLF.

(** One pass of the [while True] body of [gen_audio]; [now] is the clock
    read in the test, [now_hb] the one read for the heartbeat. *)
Definition gen_audio_iter (now now_hb : Q) : M string :=
  snapshot <- get_audio ;;
  let (audio, last_audio_time) := snapshot in
  match audio with
  | Some audio =>
      if Qltb (now - last_audio_time) AUDIO_EXPIRY_SECONDS
      then
        let audio_b64 := Base64.decode (Base64.b64encode audio) in
        ret (audio_event audio_b64)
      else ret (heartbeat_event now_hb)
  | None => ret (heartbeat_event now_hb)
  end.

Definition gen_audio_next (st : GenState) (now now_hb : Q)
  : M (option string * GenState) :=
  match st with
  | Created =>
      modify (add_audio_clients 1) ;;;
      ev <- gen_audio_iter now now_hb ;;
      ret (Some ev, Suspended)
  | Suspended =>
      ev <- gen_audio_iter now now_hb ;;
      ret (Some ev, Suspended)
  | Finished => ret (None, Finished)
  end.

Definition gen_audio_exit (st : GenState) (how : Exit) : M GenState :=
  match st with
  | Created => ret Finished
  | Suspended =>
      match how with
      | GeneratorExit | Thrown => modify (add_audio_clients (-1))
      end ;;;
      ret Finished
  | Finished => ret Finished
  end.

(** ** [GET /status] *)

(** The dictionary handed to [jsonify], one field per key. *)
Record StatusSnapshot : Type := mkStatus {
  j_status : string;
  j_clients : Z;
  j_audio_clients : Z;
  j_last_frame : string;
  j_audio_status : string
}.

Definition is_not_None {A : Type} (o : option A) : bool :=
  match o with
  | Some _ => true
  | None => false
  end.

(** [now_f] and [now_a] are the clock readings for the two ages. *)
Definition status (now_f now_a : Q) : M StatusSnapshot :=
  g <- read ;;
  let has_frame := is_not_None (current_frame g) in
  let frame_age := if has_frame then Fin (now_f - frame_time g) else Inf in
  let status_text :=
    if negb has_frame then "No frames received yet"
    else if gtb frame_age FRAME_EXPIRY_SECONDS
    then "Camera offline (last frame " +:+ pretty (int frame_age) +:+ "s ago)"
    else "Online" in
  let last_frame :=
    if has_frame then strftime_HMS (frame_time g) else "Never" in
  g <- read ;;
  let has_audio := is_not_None (current_audio g) in
  let audio_age := if has_audio then Fin (now_a - audio_time g) else Inf in
  let audio_status :=
    if negb has_audio then "No audio received yet"
    else if gtb audio_age AUDIO_EXPIRY_SECONDS
    then "Microphone offline (last audio " +:+ pretty (int audio_age) +:+ "s ago)"
    else "Receiving audio" in
  g <- read ;;
  ret {| j_status := status_text;
         j_clients := clients_count g;
         j_audio_clients := audio_clients_count g;
         j_last_frame := last_frame;
         j_audio_status := audio_status |}.

(** ** The running server

    The globals together with the generator objects of the open
    [/stream] and [/audio-stream] responses, numbered in the order the
    requests arrived. *)

Record Server : Type := mkServer {
  globals : Globals;
  video_sessions : list GenState;
  audio_sessions : list GenState
}.

Definition boot : Server :=
  {| globals := initial; video_sessions := []; audio_sessions := [] |}.

(** What can happen to the server.  Each event is one handler run or one
    generator resumption. *)
Inductive Event : Type :=
| EUpload (data : bytes) (now : Q)
| EUploadAudio (data : bytes) (now : Q)
| EStatus (now_f now_a : Q)
| EStream
| EAudioStream
| EFrameNext (i : nat) (now : Q)
| EFrameExit (i : nat) (how : Exit)
| EAudioNext (i : nat) (now now_hb : Q)
| EAudioExit (i : nat) (how : Exit).

Definition step (s : Server) (e : Event) : Server :=
  match e with
  | EUpload data now =>
      {| globals := snd (upload data now (globals s));
         video_sessions := video_sessions s;
         audio_sessions := audio_sessions s |}
  | EUploadAudio data now =>
      {| globals := snd (upload_audio data now (globals s));
         video_sessions := video_sessions s;
         audio_sessions := audio_sessions s |}
  | EStatus now_f now_a =>
      {| globals := snd (status now_f now_a (globals s));
         video_sessions := video_sessions s;
         audio_sessions := audio_sessions s |}
  | EStream =>
      {| globals := globals s;
         video_sessions := video_sessions s ++ [Created];
         audio_sessions := audio_sessions s |}
  | EAudioStream =>
      {| globals := globals s;
         video_sessions := video_sessions s;
         audio_sessions := audio_sessions s ++ [Created] |}
  | EFrameNext i now =>
      match video_sessions s !! i with
      | Some st =>
          let (r, g) := gen_frames_next st now (globals s) in
          {| globals := g;
             video_sessions := <[i := snd r]> (video_sessions s);
             audio_sessions := audio_sessions s |}
      | None => s
      end
  | EFrameExit i how =>
      match video_sessions s !! i with
      | Some st =>
          let (st', g) := gen_frames_exit st how (globals s) in
          {| globals := g;
             video_sessions := <[i := st']> (video_sessions s);
             audio_sessions := audio_sessions s |}
      | None => s
      end
  | EAudioNext i now now_hb =>
      match audio_sessions s !! i with
      | Some st =>
          let (r, g) := gen_audio_next st now now_hb (globals s) in
          {| globals := g;
             video_sessions := video_sessions s;
             audio_sessions := <[i := snd r]> (audio_sessions s) |}
      | None => s
      end
  | EAudioExit i how =>
      match audio_sessions s !! i with
      | Some st =>
          let (st', g) := gen_audio_exit st how (globals s) in
          {| globals := g;
             video_sessions := video_sessions s;
             audio_sessions := <[i := st']> (audio_sessions s) |}
      | None => s
      end
  end.

Definition run (s : Server) (evs : list Event) : Server :=
  fold_left step evs s.

(** What a generator in state [st] contributes to its counter. *)
Definition started (st : GenState) : Z :=
  match st with
  | Suspended => 1
  | _ => 0
  end.

(** Sessions that have started and not yet terminated. *)
Definition live (l : list GenState) : Z :=
  Z.of_nat (length (filter (fun st => st = Suspended) l)).

(** ** The two slots, uniformly *)

Inductive Slot : Type :=
| Video
| Audio.

(** [get()] on a slot: the locked snapshot its readers take. *)
Definition get (k : Slot) : M (option bytes * Q) :=
  match k with
  | Video => get_frame
  | Audio => get_audio
  end.

Definition payload (k : Slot) (g : Globals) : option bytes :=
  match k with
  | Video => current_frame g
  | Audio => current_audio g
  end.

Definition stamp (k : Slot) (g : Globals) : Q :=
  match k with
  | Video => frame_time g
  | Audio => audio_time g
  end.

(** The request that calls [set()] on a slot. *)
Definition set_event (k : Slot) (data : bytes) (now : Q) : Event :=
  match k with
  | Video => EUpload data now
  | Audio => EUploadAudio data now
  end.

(** Events that complete a [set()] on the slot. *)
Definition sets (k : Slot) (e : Event) : bool :=
  match k, e with
  | Video, EUpload data _ => truthy data
  | Audio, EUploadAudio data _ => truthy data
  | _, _ => false
  end.

(** The clock readings stored into the slot along a trace, in order. *)
Definition set_time (k : Slot) (e : Event) : list Q :=
  match k, e with
  | Video, EUpload data now => if truthy data then [now] else []
  | Audio, EUploadAudio data now => if truthy data then [now] else []
  | _, _ => []
  end.

Definition set_times (k : Slot) (evs : list Event) : list Q :=
  flat_map (set_time k) evs.

(** The four slot variables. *)
Definition slots (g : Globals) : option bytes * Q * option bytes * Q :=
  (current_frame g, frame_time g, current_audio g, audio_time g).

(** The availability text [status] reports for a slot. *)
Definition status_of (k : Slot) (r : StatusSnapshot) : string :=
  match k with
  | Video => j_status r
  | Audio => j_audio_status r
  end.

Definition never_text (k : Slot) : string :=
  match k with
  | Video => "No frames received yet"
  | Audio => "No audio received yet"
  end.

(** A whole session as the WSGI server drives it: the generator is
    created, resumed once per element of the list of clock readings, and
    then terminated. *)
Fixpoint gen_frames_drive (st : GenState) (nows : list Q) : M GenState :=
  match nows with
  | [] => ret st
  | now :: rest =>
      r <- gen_frames_next st now ;;
      gen_frames_drive (snd r) rest
  end.

Definition video_session (nows : list Q) (how : Exit) : M GenState :=
  st <- gen_frames_drive Created nows ;;
  gen_frames_exit st how.

Fixpoint gen_audio_drive (st : GenState) (nows : list (Q * Q))
  : M GenState :=
  match nows with
  | [] => ret st
  | (now, now_hb) :: rest =>
      r <- gen_audio_next st now now_hb ;;
      gen_audio_drive (snd r) rest
  end.

Definition audio_session (nows : list (Q * Q)) (how : Exit) : M GenState :=
  st <- gen_audio_drive Created nows ;;
  gen_audio_exit st how.

(** The audio event as the interface description frames it: a JSON object
    with double-quoted key and value, which is what the viewer page's
    [JSON.parse(event.data)] accepts. *)
Definition dquote : string := String (ascii_of_byte x22) EmptyString.

Definition json_audio_event (audio_b64 : string) : string :=
  "data: {" +:+ dquote +:+ "audio" +:+ dquote +:+ ": "
    +:+ dquote +:+ audio_b64 +:+ dquote +:+ "}" +:+ LFLF.

(** The connection counter and the generator objects of a stream type. *)
Definition counter (k : Slot) (g : Globals) : Z :=
  match k with
  | Video => clients_count g
  | Audio => audio_clients_count g
  end.

Definition sessions (k : Slot) (s : Server) : list GenState :=
  match k with
  | Video => video_sessions s
  | Audio => audio_sessions s
  end.

(** ** Traces used to exercise the server *)

(** [n] viewers request [/stream] and each reads its first part at clock
    reading [now]. *)
Definition open_streams (n : nat) : list Event := replicate n EStream.

Definition start_streams (n : nat) (now : Q) : list Event :=
  map (fun i => EFrameNext i now) (seq 0 n).

(** How far a generator is in its life. *)
Definition rank (st : GenState) : nat :=
  match st with
  | Created => 0
  | Suspended => 1
  | Finished => 2
  end.

(** The requests that create a generator of the stream type. *)
Definition opens (k : Slot) (e : Event) : bool :=
  match k, e with
  | Video, EStream => true
  | Audio, EAudioStream => true
  | _, _ => false
  end.

(** What an iteration of the slot's generator sends, as text or bytes. *)
Definition video_output (now : Q) (g : Globals) : bytes :=
  fst (gen_frames_iter now g).

Definition audio_output (now now_hb : Q) (g : Globals) : string :=
  fst (gen_audio_iter now now_hb g).

(** * Properties *)

(** ** Order on timestamps *)

Lemma Qltb_lt (x y : Q) : Qltb x y = true <-> (x < y)%Q.
Proof.
  unfold Qltb. rewrite Qlt_alt. destruct (x ?= y)%Q; split; congruence.
Qed.

Lemma Qltb_ge (x y : Q) : Qltb x y = false <-> (y <= x)%Q.
Proof.
  rewrite <- not_true_iff_false, Qltb_lt. split.
  - apply Qnot_lt_le.
  - apply Qle_not_lt.
Qed.

Lemma truthy_nonempty (data : bytes) : truthy data = true <-> data <> [].
Proof. destruct data; simpl; split; congruence. Qed.

Example b64_Man : Base64.decode (Base64.b64encode (b "Man")) = "TWFu"%string.
Proof. reflexivity. Qed.
Example b64_Ma : Base64.decode (Base64.b64encode (b "Ma")) = "TWE="%string.
Proof. reflexivity. Qed.
Example b64_M : Base64.decode (Base64.b64encode (b "M")) = "TQ=="%string.
Proof. reflexivity. Qed.

(** ** What one event does to the globals *)

Lemma status_pure (now_f now_a : Q) (g : Globals) :
  snd (status now_f now_a g) = g.
Proof. reflexivity. Qed.

Lemma gen_frames_iter_pure (now : Q) (g : Globals) :
  snd (gen_frames_iter now g) = g.
Proof.
  unfold gen_frames_iter, bind, get_frame, read, ret; simpl.
  destruct (current_frame g); [destruct (Qltb _ _)|]; reflexivity.
Qed.

Lemma gen_audio_iter_pure (now now_hb : Q) (g : Globals) :
  snd (gen_audio_iter now now_hb g) = g.
Proof.
  unfold gen_audio_iter, bind, get_audio, read, ret; simpl.
  destruct (current_audio g); [destruct (Qltb _ _)|]; reflexivity.
Qed.

Lemma gen_frames_next_slots (st : GenState) (now : Q) (g : Globals) :
  slots (snd (gen_frames_next st now g)) = slots g.
Proof.
  destruct st; simpl; unfold bind, modify; simpl; try reflexivity.
  - pose proof (gen_frames_iter_pure now (add_clients 1 g)) as H.
    destruct (gen_frames_iter now (add_clients 1 g)) as [p g'].
    simpl in *; subst g'; reflexivity.
  - pose proof (gen_frames_iter_pure now g) as H.
    destruct (gen_frames_iter now g) as [p g'].
    simpl in *; subst g'; reflexivity.
Qed.

Lemma gen_audio_next_slots (st : GenState) (now now_hb : Q) (g : Globals) :
  slots (snd (gen_audio_next st now now_hb g)) = slots g.
Proof.
  destruct st; simpl; unfold bind, modify; simpl; try reflexivity.
  - pose proof (gen_audio_iter_pure now now_hb (add_audio_clients 1 g)) as H.
    destruct (gen_audio_iter now now_hb (add_audio_clients 1 g)) as [p g'].
    simpl in *; subst g'; reflexivity.
  - pose proof (gen_audio_iter_pure now now_hb g) as H.
    destruct (gen_audio_iter now now_hb g) as [p g'].
    simpl in *; subst g'; reflexivity.
Qed.

Lemma gen_frames_exit_slots (st : GenState) (how : Exit) (g : Globals) :
  slots (snd (gen_frames_exit st how g)) = slots g.
Proof. destruct st, how; reflexivity. Qed.

Lemma gen_audio_exit_slots (st : GenState) (how : Exit) (g : Globals) :
  slots (snd (gen_audio_exit st how g)) = slots g.
Proof. destruct st, how; reflexivity. Qed.

Lemma upload_rejects_empty (now : Q) (g : Globals) :
  upload [] now g = (("No data"%string, 400), g)
  /\ upload_audio [] now g = (("No data"%string, 400), g).
Proof. split; reflexivity. Qed.

Lemma upload_stores (data : bytes) (now : Q) (g : Globals) :
  data <> [] ->
  upload data now g = (("OK"%string, 200), set_frame data now g)
  /\ upload_audio data now g = (("OK"%string, 200), set_audio data now g).
Proof.
  intros Hd. apply truthy_nonempty in Hd.
  unfold upload, upload_audio. rewrite Hd. split; reflexivity.
Qed.

(** An event that is not a completed [set()] on either slot leaves all
    four slot variables as they were. *)
Lemma step_slots (s : Server) (e : Event) :
  sets Video e = false -> sets Audio e = false ->
  slots (globals (step s e)) = slots (globals s).
Proof.
  intros Hv Ha. destruct e as [d t|d t|nf na| | |i t|i how|i t hb|i how];
    simpl in *; try reflexivity.
  - unfold upload. rewrite Hv. reflexivity.
  - unfold upload_audio. rewrite Ha. reflexivity.
  - destruct (video_sessions s !! i) as [st|]; [|reflexivity].
    pose proof (gen_frames_next_slots st t (globals s)) as H.
    destruct (gen_frames_next st t (globals s)); exact H.
  - destruct (video_sessions s !! i) as [st|]; [|reflexivity].
    pose proof (gen_frames_exit_slots st how (globals s)) as H.
    destruct (gen_frames_exit st how (globals s)); exact H.
  - destruct (audio_sessions s !! i) as [st|]; [|reflexivity].
    pose proof (gen_audio_next_slots st t hb (globals s)) as H.
    destruct (gen_audio_next st t hb (globals s)); exact H.
  - destruct (audio_sessions s !! i) as [st|]; [|reflexivity].
    pose proof (gen_audio_exit_slots st how (globals s)) as H.
    destruct (gen_audio_exit st how (globals s)); exact H.
Qed.

Lemma run_app (s : Server) (evs1 evs2 : list Event) :
  run s (evs1 ++ evs2) = run (run s evs1) evs2.
Proof. apply fold_left_app. Qed.

Lemma step_set (k : Slot) (data : bytes) (now : Q) (s : Server) :
  data <> [] ->
  payload k (globals (step s (set_event k data now))) = Some data
  /\ stamp k (globals (step s (set_event k data now))) = now.
Proof.
  intros Hd. destruct (upload_stores data now (globals s) Hd) as [Hv Ha].
  destruct k; simpl; [rewrite Hv | rewrite Ha]; split; reflexivity.
Qed.

(** An event that does not complete a [set()] on slot [k] leaves that
    slot's payload and timestamp alone. *)
Lemma step_keeps (k : Slot) (s : Server) (e : Event) :
  sets k e = false ->
  payload k (globals (step s e)) = payload k (globals s)
  /\ stamp k (globals (step s e)) = stamp k (globals s).
Proof.
  intros Hk.
  destruct (sets Video e) eqn:Hv; [|destruct (sets Audio e) eqn:Ha].
  - destruct e; simpl in Hv; try discriminate.
    destruct k; [simpl in Hk; congruence|].
    simpl. unfold upload. rewrite Hv. split; reflexivity.
  - destruct e; simpl in Ha; try discriminate.
    destruct k; [|simpl in Hk; congruence].
    simpl. unfold upload_audio. rewrite Ha. split; reflexivity.
  - pose proof (step_slots s e Hv Ha) as H. unfold slots in H.
    injection H as H1 H2 H3 H4. destruct k; simpl; split; assumption.
Qed.

Lemma run_keeps (k : Slot) (evs : list Event) (s : Server) :
  Forall (fun e => sets k e = false) evs ->
  payload k (globals (run s evs)) = payload k (globals s)
  /\ stamp k (globals (run s evs)) = stamp k (globals s).
Proof.
  intros H. revert s. induction H as [|e evs He _ IH]; intros s.
  - split; reflexivity.
  - simpl. destruct (IH (step s e)) as [-> ->]. apply step_keeps, He.
Qed.

(** C1.  After a [set()] of a non-empty payload [P] at clock reading [now]
    (which answers 200), the snapshot [get()] of that slot is [(P, now)]
    after every run of events that completes no further [set()] on the
    slot, whatever happened before: the last completed [set()] is the one
    observed. *)
Theorem set_then_get (k : Slot) (P : bytes) (now : Q) (s : Server)
    (before after : list Event) :
  P <> [] ->
  Forall (fun e => sets k e = false) after ->
  fst (upload P now (globals (run s before))) = ("OK"%string, 200)
  /\ fst (upload_audio P now (globals (run s before))) = ("OK"%string, 200)
  /\ fst (get k (globals (run s (before ++ set_event k P now :: after))))
     = (Some P, now).
Proof.
  intros HP Hafter.
  destruct (upload_stores P now (globals (run s before)) HP) as [Hv Ha].
  rewrite Hv, Ha. split; [reflexivity|]. split; [reflexivity|].
  rewrite run_app. simpl.
  destruct (run_keeps k after (step (run s before) (set_event k P now)) Hafter)
    as [Hp Ht].
  destruct (step_set k P now (run s before) HP) as [Hp' Ht'].
  rewrite Hp' in Hp. rewrite Ht' in Ht.
  destruct k; simpl in *; rewrite Hp, Ht; reflexivity.
Qed.

(** C3.  An upload with an empty body answers 400 and returns the globals
    it was given; an upload with a non-empty body answers 200 and stores
    the body with the clock reading, which the slot's [get()] then
    returns. *)
Theorem empty_upload_rejected (now : Q) (g : Globals) :
  upload [] now g = (("No data"%string, 400), g)
  /\ upload_audio [] now g = (("No data"%string, 400), g)
  /\ (forall x rest,
        upload (x :: rest) now g
        = (("OK"%string, 200), set_frame (x :: rest) now g)
        /\ fst (get_frame (set_frame (x :: rest) now g))
           = (Some (x :: rest), now))
  /\ (forall x rest,
        upload_audio (x :: rest) now g
        = (("OK"%string, 200), set_audio (x :: rest) now g)
        /\ fst (get_audio (set_audio (x :: rest) now g))
           = (Some (x :: rest), now)).
Proof. repeat split. Qed.

(** C9.  [status] returns the globals unchanged; a resumption or a
    termination of either generator leaves the four slot variables
    unchanged; and any event that changes one of them is an upload that
    completes a [set()]. *)
Theorem readers_leave_slots (g : Globals) (s : Server) (e : Event)
    (st : GenState) (how : Exit) (now now' : Q) :
  snd (status now now' g) = g
  /\ slots (snd (gen_frames_next st now g)) = slots g
  /\ slots (snd (gen_audio_next st now now' g)) = slots g
  /\ slots (snd (gen_frames_exit st how g)) = slots g
  /\ slots (snd (gen_audio_exit st how g)) = slots g
  /\ (slots (globals (step s e)) = slots (globals s)
      \/ sets Video e = true \/ sets Audio e = true).
Proof.
  split; [apply status_pure|].
  split; [apply gen_frames_next_slots|].
  split; [apply gen_audio_next_slots|].
  split; [apply gen_frames_exit_slots|].
  split; [apply gen_audio_exit_slots|].
  destruct (sets Video e) eqn:Hv; [auto|].
  destruct (sets Audio e) eqn:Ha; [auto|].
  left. apply step_slots; assumption.
Qed.

Lemma part_with_payload (f : bytes) :
  frame_header ++ f ++ CRLF = frame_header ++ CRLF -> f = [].
Proof.
  intros H. apply app_inv_head in H.
  apply (f_equal (@length byte)) in H. rewrite length_app in H.
  destruct f; [reflexivity|simpl in H; lia].
Qed.

Lemma heartbeat_is_not_audio (t : Q) (x : string) :
  heartbeat_event t <> audio_event x.
Proof.
  unfold heartbeat_event, audio_event. intros H. inversion H.
Qed.


(** C4.  Every resumption of a video generator that has not terminated
    yields exactly one part: the delimiter line, the content-type header,
    a blank line, a payload and a line end.  The payload is the stored
    frame when there is one and its age is below 10 seconds, and is empty
    when the slot is unset or the frame is older. *)
Theorem video_part_format (st : GenState) (now : Q) (g : Globals) :
  st <> Finished ->
  exists payload : bytes,
    fst (gen_frames_next st now g)
    = (Some (b "--frame" ++ [x0d; x0a]
             ++ b "Content-Type: image/jpeg" ++ [x0d; x0a; x0d; x0a]
             ++ payload ++ [x0d; x0a]),
       Suspended)
    /\ payload
       = match current_frame g with
         | Some f => if Qlt_le_dec (now - frame_time g) 10 then f else []
         | None => []
         end.
Proof.
  intros Hst.
  assert (Hiter : forall g', current_frame g' = current_frame g ->
            frame_time g' = frame_time g ->
            exists payload, fst (gen_frames_iter now g')
              = frame_header ++ payload ++ CRLF
            /\ payload = match current_frame g with
                         | Some f =>
                             if Qlt_le_dec (now - frame_time g) 10
                             then f else []
                         | None => []
                         end).
  { intros g' Hc Ht.
    unfold gen_frames_iter, bind, get_frame, read, ret; simpl.
    rewrite Hc, Ht. destruct (current_frame g) as [f|].
    - unfold FRAME_EXPIRY_SECONDS.
      destruct (Qltb (now - frame_time g) 10) eqn:E;
        destruct (Qlt_le_dec (now - frame_time g) 10) as [Hlt|Hge].
      + exists f. split; reflexivity.
      + apply Qltb_lt in E. exfalso. apply (Qlt_not_le _ _ E Hge).
      + apply Qltb_ge in E. exfalso. apply (Qlt_not_le _ _ Hlt E).
      + exists []. split; reflexivity.
    - exists []. split; reflexivity. }
  destruct st; [| |congruence].
  - destruct (Hiter (add_clients 1 g) eq_refl eq_refl) as (p & Hp & Hpay).
    exists p. split; [|exact Hpay].
    simpl. unfold bind, modify; simpl.
    destruct (gen_frames_iter now (add_clients 1 g)) as [q g'].
    simpl in *. subst q. reflexivity.
  - destruct (Hiter g eq_refl eq_refl) as (p & Hp & Hpay).
    exists p. split; [|exact Hpay].
    simpl. unfold bind; simpl.
    destruct (gen_frames_iter now g) as [q g'].
    simpl in *. subst q. reflexivity.
Qed.

(** C5.  With the chunk [b"Man"] stored one second ago, the audio
    generator sends the event with single-quoted key and value, which is
    not the double-quoted JSON framing; no payload makes the two agree.
    With nothing fresh it sends a heartbeat carrying the clock reading
    taken for it. *)
Theorem audio_event_is_single_quoted :
  let g := set_audio (b "Man") 100 initial in
  fst (gen_audio_iter 101 101 g) = "data: {'audio': 'TWFu'}" +:+ LFLF
  /\ fst (gen_audio_iter 101 101 g) <> json_audio_event "TWFu"
  /\ (forall x y : string, audio_event x <> json_audio_event y)
  /\ fst (gen_audio_iter 106 107 g) = heartbeat_event 107.
Proof.
  split; [reflexivity|]. split; [|split; [|reflexivity]].
  - intros H. vm_compute in H. discriminate H.
  - intros x y H. unfold audio_event, json_audio_event, dquote in H.
    inversion H.
Qed.

(** C6.  At an age equal to the threshold the two judgments differ: with
    a frame stored at 100 and read at 110 the video generator sends the
    stale part while [status] reports "Online"; with a chunk stored at 100
    and read at 105 the audio generator sends a heartbeat while [status]
    reports "Receiving audio". *)
Theorem boundary_stream_stale_status_online :
  let g := set_audio (b "pcm") 100 (set_frame (b "jpg") 100 initial) in
  fst (gen_frames_iter 110 g) = frame_header ++ CRLF
  /\ j_status (fst (status 110 105 g)) = "Online"%string
  /\ fst (gen_audio_iter 105 105 g) = heartbeat_event 105
  /\ j_audio_status (fst (status 110 105 g)) = "Receiving audio"%string.
Proof. repeat split. Qed.

(** Away from the boundary the generator and [status] agree. *)
Lemma stream_status_agree_off_boundary (g : Globals) (f : bytes)
    (now now_a : Q) :
  current_frame g = Some f ->
  ~ (now - frame_time g == 10)%Q ->
  (Qltb (now - frame_time g) FRAME_EXPIRY_SECONDS = true
   <-> j_status (fst (status now now_a g)) = "Online"%string).
Proof.
  intros Hf Hne. unfold status, bind, read, ret; simpl.
  rewrite Hf; simpl. unfold FRAME_EXPIRY_SECONDS.
  destruct (Qltb 10 (now - frame_time g)) eqn:E.
  - apply Qltb_lt in E. split.
    + intros H. apply Qltb_lt in H. exfalso.
      apply (Qlt_irrefl 10). eapply Qlt_trans; eassumption.
    + intros H. inversion H.
  - apply Qltb_ge in E. split; [reflexivity|]. intros _.
    apply Qltb_lt. apply Qle_lt_or_eq in E. destruct E as [E|E]; tauto.
Qed.

Lemma run_boot_no_audio (evs : list Event) :
  Forall (fun e => sets Audio e = false) evs ->
  current_audio (globals (run boot evs)) = None.
Proof. intros H. apply (run_keeps Audio evs boot) in H. apply H. Qed.

(** C8.  After any run from start-up in which no upload completed a
    [set()] on the audio slot, [status] reports "No audio received yet",
    and every resumption of an audio generator that has not terminated
    yields the heartbeat event: the text [data: {'heartbeat': ], the
    clock reading read for it as [str] prints it, [}] and a blank line.
    That text is never an audio-data event, whatever base64 text such an
    event carries. *)
Theorem no_audio_means_heartbeats (evs : list Event) (st : GenState)
    (now now_hb now_f now_a : Q) :
  Forall (fun e => sets Audio e = false) evs ->
  st <> Finished ->
  let g := globals (run boot evs) in
  let heartbeat :=
    "data: {'heartbeat': " +:+ float_str now_hb +:+ "}"
      +:+ String "010"%char (String "010"%char EmptyString) in
  current_audio g = None
  /\ j_audio_status (fst (status now_f now_a g))
     = "No audio received yet"%string
  /\ fst (gen_audio_iter now now_hb g) = heartbeat
  /\ fst (gen_audio_next st now now_hb g) = (Some heartbeat, Suspended)
  /\ (forall x : string,
        heartbeat
        <> "data: {'audio': '" +:+ x +:+ "'}"
             +:+ String "010"%char (String "010"%char EmptyString)).
Proof.
  intros Hevs Hst g heartbeat.
  pose proof (run_boot_no_audio evs Hevs) as Hnone.
  fold g in Hnone. split; [exact Hnone|].
  split.
  { unfold status, bind, read, ret; simpl. rewrite Hnone.
    reflexivity. }
  split.
  { unfold gen_audio_iter, bind, get_audio, read, ret; simpl.
    rewrite Hnone. reflexivity. }
  split; [|intros x; exact (heartbeat_is_not_audio now_hb x)].
  destruct st; [| |congruence]; simpl;
    unfold gen_audio_iter, bind, modify, get_audio, read, ret;
    simpl; rewrite Hnone; reflexivity.
Qed.

(** ** Connection accounting *)

Lemma live_cons (st : GenState) (l : list GenState) :
  live (st :: l) = started st + live l.
Proof.
  unfold live. rewrite filter_cons.
  destruct (decide (st = Suspended)) as [->|Hn]; simpl length.
  - simpl started. lia.
  - destruct st; simpl; try lia. congruence.
Qed.

Lemma live_app_created (l : list GenState) : live (l ++ [Created]) = live l.
Proof.
  induction l as [|st l IH]; [reflexivity|].
  simpl app. rewrite !live_cons, IH. reflexivity.
Qed.

Lemma live_insert (l : list GenState) (i : nat) (st st' : GenState) :
  l !! i = Some st ->
  live (<[i := st']> l) = live l - started st + started st'.
Proof.
  revert i. induction l as [|x l IH]; intros i Hi; [discriminate|].
  destruct i as [|i]; simpl in *.
  - injection Hi as ->. rewrite !live_cons. lia.
  - rewrite !live_cons, (IH i Hi). lia.
Qed.

Lemma gen_frames_next_effect (st : GenState) (now : Q) (g : Globals) :
  snd (gen_frames_next st now g)
  = match st with Created => add_clients 1 g | _ => g end
  /\ snd (fst (gen_frames_next st now g))
     = match st with Finished => Finished | _ => Suspended end.
Proof.
  destruct st; simpl; unfold bind, modify; simpl.
  - pose proof (gen_frames_iter_pure now (add_clients 1 g)) as H.
    destruct (gen_frames_iter now (add_clients 1 g)); simpl in *.
    subst; split; reflexivity.
  - pose proof (gen_frames_iter_pure now g) as H.
    destruct (gen_frames_iter now g); simpl in *.
    subst; split; reflexivity.
  - split; reflexivity.
Qed.

Lemma gen_audio_next_effect (st : GenState) (now now_hb : Q) (g : Globals) :
  snd (gen_audio_next st now now_hb g)
  = match st with Created => add_audio_clients 1 g | _ => g end
  /\ snd (fst (gen_audio_next st now now_hb g))
     = match st with Finished => Finished | _ => Suspended end.
Proof.
  destruct st; simpl; unfold bind, modify; simpl.
  - pose proof (gen_audio_iter_pure now now_hb (add_audio_clients 1 g)) as H.
    destruct (gen_audio_iter now now_hb (add_audio_clients 1 g)); simpl in *.
    subst; split; reflexivity.
  - pose proof (gen_audio_iter_pure now now_hb g) as H.
    destruct (gen_audio_iter now now_hb g); simpl in *.
    subst; split; reflexivity.
  - split; reflexivity.
Qed.

Lemma gen_frames_exit_effect (st : GenState) (how : Exit) (g : Globals) :
  gen_frames_exit st how g
  = (Finished, match st with Suspended => add_clients (-1) g | _ => g end).
Proof. destruct st, how; reflexivity. Qed.

Lemma gen_audio_exit_effect (st : GenState) (how : Exit) (g : Globals) :
  gen_audio_exit st how g
  = (Finished,
     match st with Suspended => add_audio_clients (-1) g | _ => g end).
Proof. destruct st, how; reflexivity. Qed.

(** One event keeps each counter equal, up to its start-up offset, to the
    number of live sessions of its stream type. *)
Lemma step_counter (k : Slot) (s : Server) (e : Event) :
  counter k (globals (step s e)) - live (sessions k (step s e))
  = counter k (globals s) - live (sessions k s).
Proof.
  destruct e as [d t|d t|nf na| | |i t|i how|i t hb|i how]; simpl.
  - unfold upload. destruct (truthy d); destruct k; reflexivity.
  - unfold upload_audio. destruct (truthy d); destruct k; reflexivity.
  - destruct k; reflexivity.
  - destruct k; simpl; [rewrite live_app_created|]; reflexivity.
  - destruct k; simpl; [|rewrite live_app_created]; reflexivity.
  - destruct (video_sessions s !! i) as [st|] eqn:Hi; [|reflexivity].
    destruct (gen_frames_next_effect st t (globals s)) as [Hg Hst].
    destruct (gen_frames_next st t (globals s)) as [[o st'] g'].
    simpl in Hg, Hst. subst g' st'.
    destruct k; simpl; [rewrite (live_insert _ _ _ _ Hi)|];
      destruct st; simpl; lia.
  - destruct (video_sessions s !! i) as [st|] eqn:Hi; [|reflexivity].
    rewrite gen_frames_exit_effect.
    destruct k; simpl; [rewrite (live_insert _ _ _ _ Hi)|];
      destruct st; simpl; lia.
  - destruct (audio_sessions s !! i) as [st|] eqn:Hi; [|reflexivity].
    destruct (gen_audio_next_effect st t hb (globals s)) as [Hg Hst].
    destruct (gen_audio_next st t hb (globals s)) as [[o st'] g'].
    simpl in Hg, Hst. subst g' st'.
    destruct k; simpl; [|rewrite (live_insert _ _ _ _ Hi)];
      destruct st; simpl; lia.
  - destruct (audio_sessions s !! i) as [st|] eqn:Hi; [|reflexivity].
    rewrite gen_audio_exit_effect.
    destruct k; simpl; [|rewrite (live_insert _ _ _ _ Hi)];
      destruct st; simpl; lia.
Qed.

Lemma add_clients_cancel (g : Globals) :
  add_clients (-1) (add_clients 1 g) = g.
Proof.
  destruct g; unfold add_clients; simpl. f_equal. lia.
Qed.

Lemma add_audio_clients_cancel (g : Globals) :
  add_audio_clients (-1) (add_audio_clients 1 g) = g.
Proof.
  destruct g; unfold add_audio_clients; simpl. f_equal. lia.
Qed.

Lemma gen_frames_drive_effect (nows : list Q) (st : GenState) (g : Globals) :
  gen_frames_drive st nows g
  = match nows, st with
    | [], _ => (st, g)
    | _ :: _, Created => (Suspended, add_clients 1 g)
    | _ :: _, Suspended => (Suspended, g)
    | _ :: _, Finished => (Finished, g)
    end.
Proof.
  revert st g. induction nows as [|now rest IH]; intros st g; [reflexivity|].
  simpl. unfold bind.
  destruct (gen_frames_next_effect st now g) as [Hg Hst].
  destruct (gen_frames_next st now g) as [r g']. simpl in Hg, Hst.
  rewrite IH, Hst, Hg. destruct rest, st; reflexivity.
Qed.

Lemma gen_audio_drive_effect (nows : list (Q * Q)) (st : GenState)
    (g : Globals) :
  gen_audio_drive st nows g
  = match nows, st with
    | [], _ => (st, g)
    | _ :: _, Created => (Suspended, add_audio_clients 1 g)
    | _ :: _, Suspended => (Suspended, g)
    | _ :: _, Finished => (Finished, g)
    end.
Proof.
  revert st g. induction nows as [|[now hb] rest IH]; intros st g;
    [reflexivity|].
  simpl. unfold bind.
  destruct (gen_audio_next_effect st now hb g) as [Hg Hst].
  destruct (gen_audio_next st now hb g) as [r g']. simpl in Hg, Hst.
  rewrite IH, Hst, Hg. destruct rest, st; reflexivity.
Qed.

(** C7.  The first resumption of a generator adds one to its stream
    type's counter and later resumptions add nothing; terminating a
    started generator, by [close()] or by an exception raised at the
    [yield], subtracts one, and terminating it again subtracts nothing.
    So a session driven from creation to termination returns the globals
    it started from, and along any interleaving of events each counter
    moves exactly with the number of live sessions of its type. *)
Theorem session_counter_balance (k : Slot) (s : Server) (evs : list Event)
    (g : Globals) (now now_hb : Q) (nows : list Q) (anows : list (Q * Q))
    (how how' : Exit) :
  counter Video (snd (gen_frames_next Created now g)) = counter Video g + 1
  /\ counter Audio (snd (gen_audio_next Created now now_hb g))
     = counter Audio g + 1
  /\ snd (gen_frames_next Suspended now g) = g
  /\ snd (gen_audio_next Suspended now now_hb g) = g
  /\ gen_frames_exit Suspended how g = (Finished, add_clients (-1) g)
  /\ gen_audio_exit Suspended how g = (Finished, add_audio_clients (-1) g)
  /\ gen_frames_exit Finished how' g = (Finished, g)
  /\ gen_audio_exit Finished how' g = (Finished, g)
  /\ video_session nows how g = (Finished, g)
  /\ audio_session anows how g = (Finished, g)
  /\ counter k (globals (run s evs)) - live (sessions k (run s evs))
     = counter k (globals s) - live (sessions k s).
Proof.
  split.
  { destruct (gen_frames_next_effect Created now g) as [-> _]. reflexivity. }
  split.
  { destruct (gen_audio_next_effect Created now now_hb g) as [-> _].
    reflexivity. }
  split; [apply (gen_frames_next_effect Suspended)|].
  split; [apply (gen_audio_next_effect Suspended)|].
  split; [apply gen_frames_exit_effect|].
  split; [apply gen_audio_exit_effect|].
  split; [apply gen_frames_exit_effect|].
  split; [apply gen_audio_exit_effect|].
  split.
  { unfold video_session, bind. rewrite gen_frames_drive_effect.
    destruct nows; rewrite gen_frames_exit_effect;
      [|rewrite add_clients_cancel]; reflexivity. }
  split.
  { unfold audio_session, bind. rewrite gen_audio_drive_effect.
    destruct anows; rewrite gen_audio_exit_effect;
      [|rewrite add_audio_clients_cancel]; reflexivity. }
  revert s. induction evs as [|e evs IH]; intros s; [reflexivity|].
  simpl. rewrite IH. apply step_counter.
Qed.

(** ** A slot, once set, stays set *)

Lemma sets_inv (k : Slot) (e : Event) :
  sets k e = true ->
  exists data now,
    e = set_event k data now /\ data <> [] /\ set_time k e = [now].
Proof.
  destruct k, e as [d t|d t|nf na| | |i t|i how|i t hb|i how]; simpl;
    try discriminate; intros H; exists d, t; rewrite H;
    (split; [reflexivity|split; [apply truthy_nonempty, H|reflexivity]]).
Qed.

Lemma not_sets_time (k : Slot) (e : Event) :
  sets k e = false -> set_time k e = [].
Proof.
  destruct k, e; simpl; try reflexivity; intros ->; reflexivity.
Qed.

Lemma step_payload (k : Slot) (s : Server) (e : Event) :
  payload k (globals s) <> None -> payload k (globals (step s e)) <> None.
Proof.
  intros H. destruct (sets k e) eqn:E.
  - destruct (sets_inv k e E) as (d & t & -> & Hd & _).
    destruct (step_set k d t s Hd) as [-> _]. discriminate.
  - destruct (step_keeps k s e E) as [-> _]. exact H.
Qed.

Lemma run_payload (k : Slot) (evs : list Event) (s : Server) :
  payload k (globals s) <> None -> payload k (globals (run s evs)) <> None.
Proof.
  revert s. induction evs as [|e evs IH]; intros s H; [exact H|].
  simpl. apply IH, step_payload, H.
Qed.

Lemma Sorted_app_r {A : Type} (R : A -> A -> Prop) (l1 l2 : list A) :
  Sorted R (l1 ++ l2) -> Sorted R l2.
Proof.
  induction l1 as [|x l1 IH]; [trivial|].
  simpl. intros H. apply Sorted_inv in H. apply IH, H.
Qed.

(** Along a run whose stored clock readings, starting from the slot's
    timestamp, are in order, the timestamp does not decrease and stays in
    order with the readings still to come. *)
Lemma run_stamp_sorted (k : Slot) (evs : list Event) (s : Server)
    (rest : list Q) :
  Sorted Qle (stamp k (globals s) :: set_times k evs ++ rest) ->
  Sorted Qle (stamp k (globals (run s evs)) :: rest)
  /\ (stamp k (globals s) <= stamp k (globals (run s evs)))%Q.
Proof.
  revert s. induction evs as [|e evs IH]; intros s H.
  - split; [exact H|apply Qle_refl].
  - simpl run. unfold set_times in H. simpl in H.
    fold (set_times k evs) in H.
    destruct (sets k e) eqn:E.
    + destruct (sets_inv k e E) as (d & t & -> & Hd & Ht).
      rewrite Ht in H. simpl in H.
      destruct (step_set k d t s Hd) as [_ Hst].
      apply Sorted_inv in H. destruct H as [Hs Hhd].
      apply HdRel_inv in Hhd.
      destruct (IH (step s (set_event k d t))) as [IH1 IH2].
      { rewrite Hst. exact Hs. }
      split; [exact IH1|]. rewrite Hst in IH2.
      eapply Qle_trans; eassumption.
    + rewrite (not_sets_time k e E) in H. simpl in H.
      destruct (step_keeps k s e E) as [_ Hst].
      destruct (IH (step s e)) as [IH1 IH2].
      { rewrite Hst. exact H. }
      split; [exact IH1|]. rewrite Hst in IH2. exact IH2.
Qed.

Lemma status_text_when_set (k : Slot) (g : Globals) (now_f now_a : Q) :
  payload k g <> None ->
  status_of k (fst (status now_f now_a g)) <> never_text k.
Proof.
  intros H. unfold status, bind, read, ret; simpl.
  destruct k; simpl in *.
  - destruct (current_frame g); [|congruence]. simpl.
    destruct (Qltb _ _); intros E; inversion E.
  - destruct (current_audio g); [|congruence]. simpl.
    destruct (Qltb _ _); intros E; inversion E.
Qed.

Lemma set_times_app (k : Slot) (evs1 evs2 : list Event) :
  set_times k (evs1 ++ evs2) = set_times k evs1 ++ set_times k evs2.
Proof. apply flat_map_app. Qed.

Lemma last_any_default {A : Type} (x : A) (l : list A) (d d' : A) :
  List.last (x :: l) d = List.last (x :: l) d'.
Proof.
  revert x. induction l as [|y l IH]; intros x; [reflexivity|].
  change (List.last (y :: l) d = List.last (y :: l) d'). apply IH.
Qed.

Lemma last_cons_default {A : Type} (x : A) (l : list A) (d : A) :
  List.last (x :: l) d = List.last l x.
Proof.
  destruct l as [|y l]; [reflexivity|].
  change (List.last (y :: l) d = List.last (y :: l) x).
  apply last_any_default.
Qed.

(** After a run the slot's timestamp is the clock reading of the last
    upload of the run that completed a [set()] on it, and is as it was
    when there is none. *)
Lemma run_stamp_last (k : Slot) (evs : list Event) (s : Server) :
  stamp k (globals (run s evs))
  = List.last (set_times k evs) (stamp k (globals s)).
Proof.
  revert s. induction evs as [|e evs IH]; intros s; [reflexivity|].
  simpl run. rewrite IH. unfold set_times. simpl flat_map.
  fold (set_times k evs). destruct (sets k e) eqn:E.
  - destruct (sets_inv k e E) as (d & t & -> & Hd & Ht).
    rewrite Ht. destruct (step_set k d t s Hd) as [_ ->].
    simpl app. rewrite last_cons_default. reflexivity.
  - rewrite (not_sets_time k e E).
    destruct (step_keeps k s e E) as [_ ->]. reflexivity.
Qed.

(** C10, as the code has it.  After an upload that stored a non-empty
    payload, the slot's payload is never [None] again and [status] never
    again reports the never-received text, whatever events follow.  The
    stored timestamp is at every moment the clock reading of the latest
    upload that completed on the slot: no other event changes it, and an
    upload replaces it by its own reading whether that is later or
    earlier.  So the timestamp after more events is not smaller than it
    was when the readings that the uploads store are in non-decreasing
    order, and only then is that guaranteed. *)
Theorem slot_stays_set (k : Slot) (s : Server) (P : bytes) (now : Q)
    (evs1 evs2 evs3 : list Event) (now_f now_a : Q) :
  P <> [] ->
  let s2 := run s (evs1 ++ set_event k P now :: evs2) in
  let s3 := run s2 evs3 in
  payload k (globals s2) <> None
  /\ payload k (globals s3) <> None
  /\ status_of k (fst (status now_f now_a (globals s2))) <> never_text k
  /\ status_of k (fst (status now_f now_a (globals s3))) <> never_text k
  /\ stamp k (globals s2) = List.last (set_times k evs2) now
  /\ stamp k (globals s3)
     = List.last (set_times k evs3) (stamp k (globals s2))
  /\ (Sorted Qle (set_times k (evs1 ++ set_event k P now :: evs2 ++ evs3)) ->
      (stamp k (globals s2) <= stamp k (globals s3))%Q).
Proof.
  intros HP s2 s3.
  assert (H2 : payload k (globals s2) <> None).
  { unfold s2. rewrite run_app. simpl. apply run_payload.
    destruct (step_set k P now (run s evs1) HP) as [-> _]. discriminate. }
  assert (H3 : payload k (globals s3) <> None).
  { unfold s3. apply run_payload, H2. }
  assert (Hs2 : s2 = run (step (run s evs1) (set_event k P now)) evs2).
  { unfold s2. rewrite run_app. reflexivity. }
  destruct (step_set k P now (run s evs1) HP) as [_ Hst].
  split; [exact H2|]. split; [exact H3|].
  split; [apply status_text_when_set, H2|].
  split; [apply status_text_when_set, H3|].
  split; [rewrite Hs2, run_stamp_last, Hst; reflexivity|].
  split; [apply run_stamp_last|].
  intros Hsorted.
  rewrite set_times_app in Hsorted. apply Sorted_app_r in Hsorted.
  change (set_event k P now :: evs2 ++ evs3)
    with ([set_event k P now] ++ evs2 ++ evs3) in Hsorted.
  rewrite !set_times_app in Hsorted.
  assert (Hone : set_times k [set_event k P now] = [now]).
  { apply truthy_nonempty in HP.
    destruct k; unfold set_times; simpl; rewrite HP; reflexivity. }
  rewrite Hone in Hsorted. simpl in Hsorted.
  destruct (run_stamp_sorted k evs2 (step (run s evs1) (set_event k P now))
              (set_times k evs3)) as [Hnext _].
  { rewrite Hst. exact Hsorted. }
  rewrite <- Hs2 in Hnext.
  destruct (run_stamp_sorted k evs3 s2 []) as [_ Hle].
  { rewrite app_nil_r. exact Hnext. }
  exact Hle.
Qed.

(** * Further properties of the relay *)

(** ** Where the stored data comes from *)

Lemma run_snoc (s : Server) (evs : list Event) (e : Event) :
  run s (evs ++ [e]) = step (run s evs) e.
Proof. rewrite run_app. reflexivity. Qed.

(** After a run, a slot either is as it was, no event having completed a
    [set()] on it, or holds the body and clock reading of an upload of
    the run. *)
Lemma run_slot_cases (k : Slot) (s : Server) (evs : list Event) :
  (payload k (globals (run s evs)) = payload k (globals s)
   /\ stamp k (globals (run s evs)) = stamp k (globals s)
   /\ Forall (fun e => sets k e = false) evs)
  \/ (exists d t,
        In (set_event k d t) evs /\ d <> []
        /\ payload k (globals (run s evs)) = Some d
        /\ stamp k (globals (run s evs)) = t).
Proof.
  induction evs as [|e evs IH] using rev_ind.
  - left. repeat split. constructor.
  - rewrite run_snoc. destruct (sets k e) eqn:E.
    + right. destruct (sets_inv k e E) as (d & t & -> & Hd & _).
      exists d, t. destruct (step_set k d t (run s evs) Hd) as [Hp Ht].
      split; [apply in_or_app; right; left; reflexivity|].
      split; [exact Hd|]. split; assumption.
    + destruct (step_keeps k (run s evs) e E) as [Hp Ht].
      rewrite Hp, Ht. destruct IH as [(H1 & H2 & H3)|(d & t & H1 & H2 & H3)].
      * left. split; [exact H1|]. split; [exact H2|].
        apply Forall_app. split; [exact H3|]. constructor; [exact E|constructor].
      * right. exists d, t. split; [apply in_or_app; left; exact H1|].
        split; [exact H2|exact H3].
Qed.

(** X1.  Whatever has happened since start-up, a slot is either still
    unset with timestamp 0, no upload having completed on it, or it holds
    the non-empty body of one of the uploads received together with that
    upload's clock reading: nothing else is ever stored. *)
Theorem stored_payload_comes_from_upload (k : Slot) (evs : list Event) :
  (payload k (globals (run boot evs)) = None
   /\ stamp k (globals (run boot evs)) = 0%Q
   /\ Forall (fun e => sets k e = false) evs)
  \/ (exists d t,
        In (set_event k d t) evs /\ d <> []
        /\ payload k (globals (run boot evs)) = Some d
        /\ stamp k (globals (run boot evs)) = t).
Proof.
  destruct (run_slot_cases k boot evs) as [(Hp & Ht & Hall)|H].
  - left. rewrite Hp, Ht. destruct k; repeat split; assumption.
  - right. exact H.
Qed.

Lemma video_output_cases (now : Q) (g : Globals) :
  video_output now g = frame_header ++ CRLF
  \/ (exists d, current_frame g = Some d
        /\ (now - frame_time g < 10)%Q
        /\ video_output now g = frame_header ++ d ++ CRLF).
Proof.
  unfold video_output, gen_frames_iter, bind, get_frame, read, ret; simpl.
  destruct (current_frame g) as [d|]; [|left; reflexivity].
  unfold FRAME_EXPIRY_SECONDS.
  destruct (Qltb (now - frame_time g) 10) eqn:E; [|left; reflexivity].
  right. exists d. apply Qltb_lt in E. repeat split. exact E.
Qed.

Lemma audio_output_cases (now now_hb : Q) (g : Globals) :
  audio_output now now_hb g = heartbeat_event now_hb
  \/ (exists d, current_audio g = Some d
        /\ (now - audio_time g < 5)%Q
        /\ audio_output now now_hb g
           = audio_event (Base64.decode (Base64.b64encode d))).
Proof.
  unfold audio_output, gen_audio_iter, bind, get_audio, read, ret; simpl.
  destruct (current_audio g) as [d|]; [|left; reflexivity].
  unfold AUDIO_EXPIRY_SECONDS.
  destruct (Qltb (now - audio_time g) 5) eqn:E; [|left; reflexivity].
  right. exists d. apply Qltb_lt in E. repeat split. exact E.
Qed.

(** X2.  Whatever has happened since start-up, an iteration of the video
    generator sends either the empty part or the part carrying the body
    of an upload that was received, read less than 10 seconds after that
    upload's clock reading; an iteration of the audio generator sends
    either a heartbeat or the event carrying the base64 text of an audio
    upload that was received less than 5 seconds before. *)
Theorem streams_send_only_uploaded_data (evs : list Event) (now now_hb : Q) :
  (video_output now (globals (run boot evs)) = frame_header ++ CRLF
   \/ exists d t,
        In (EUpload d t) evs /\ d <> [] /\ (now - t < 10)%Q
        /\ video_output now (globals (run boot evs))
           = frame_header ++ d ++ CRLF)
  /\ (audio_output now now_hb (globals (run boot evs))
      = heartbeat_event now_hb
      \/ exists d t,
           In (EUploadAudio d t) evs /\ d <> [] /\ (now - t < 5)%Q
           /\ audio_output now now_hb (globals (run boot evs))
              = audio_event (Base64.decode (Base64.b64encode d))).
Proof.
  split.
  - destruct (video_output_cases now (globals (run boot evs)))
      as [H|(d & Hd & Hage & Hout)]; [left; exact H|].
    destruct (run_slot_cases Video boot evs)
      as [(Hp & _)|(d' & t & Hin & Hne & Hp & Ht)]; simpl in *.
    + rewrite Hd in Hp. discriminate.
    + right. exists d', t. rewrite Hd in Hp. injection Hp as ->.
      rewrite Ht in Hage. repeat split; assumption.
  - destruct (audio_output_cases now now_hb (globals (run boot evs)))
      as [H|(d & Hd & Hage & Hout)]; [left; exact H|].
    destruct (run_slot_cases Audio boot evs)
      as [(Hp & _)|(d' & t & Hin & Hne & Hp & Ht)]; simpl in *.
    + rewrite Hd in Hp. discriminate.
    + right. exists d', t. rewrite Hd in Hp. injection Hp as ->.
      rewrite Ht in Hage. repeat split; assumption.
Qed.

(** ** A slot depends only on its own uploads *)

Lemma run_filter_slot (k : Slot) (evs : list Event) (s1 s2 : Server) :
  payload k (globals s1) = payload k (globals s2) ->
  stamp k (globals s1) = stamp k (globals s2) ->
  payload k (globals (run s1 evs))
  = payload k (globals (run s2 (List.filter (sets k) evs)))
  /\ stamp k (globals (run s1 evs))
     = stamp k (globals (run s2 (List.filter (sets k) evs))).
Proof.
  revert s1 s2. induction evs as [|e evs IH]; intros s1 s2 Hp Ht.
  - split; assumption.
  - simpl. destruct (sets k e) eqn:E.
    + destruct (sets_inv k e E) as (d & t & -> & Hd & _). simpl.
      destruct (step_set k d t s1 Hd) as [Hp1 Ht1].
      destruct (step_set k d t s2 Hd) as [Hp2 Ht2].
      apply IH; congruence.
    + destruct (step_keeps k s1 e E) as [Hp1 Ht1].
      apply IH; congruence.
Qed.

Lemma video_output_slot (now : Q) (g g' : Globals) :
  current_frame g = current_frame g' -> frame_time g = frame_time g' ->
  video_output now g = video_output now g'.
Proof.
  intros Hc Ht.
  unfold video_output, gen_frames_iter, bind, get_frame, read, ret; simpl.
  rewrite Hc, Ht. destruct (current_frame g'); [destruct (Qltb _ _)|];
    reflexivity.
Qed.

Lemma audio_output_slot (now now_hb : Q) (g g' : Globals) :
  current_audio g = current_audio g' -> audio_time g = audio_time g' ->
  audio_output now now_hb g = audio_output now now_hb g'.
Proof.
  intros Hc Ht.
  unfold audio_output, gen_audio_iter, bind, get_audio, read, ret; simpl.
  rewrite Hc, Ht. destruct (current_audio g'); [destruct (Qltb _ _)|];
    reflexivity.
Qed.

Lemma status_of_slot (k : Slot) (now_f now_a : Q) (g g' : Globals) :
  payload k g = payload k g' -> stamp k g = stamp k g' ->
  status_of k (fst (status now_f now_a g))
  = status_of k (fst (status now_f now_a g')).
Proof.
  intros Hp Ht. unfold status, bind, read, ret; simpl.
  destruct k; simpl in *; rewrite Hp, Ht; reflexivity.
Qed.

(** X6.  What a slot holds after a run, and with it what its generator
    sends and what [status] says about it, is the same as after the run
    with every event deleted except the uploads that completed a [set()]
    on that slot: uploads to the other slot, status requests and viewers
    coming and going make no difference. *)
Theorem slot_depends_only_on_its_uploads (k : Slot) (s : Server)
    (evs : list Event) (now now_hb now_f now_a : Q) :
  let g := globals (run s evs) in
  let g' := globals (run s (List.filter (sets k) evs)) in
  payload k g = payload k g'
  /\ stamp k g = stamp k g'
  /\ match k with
     | Video => video_output now g = video_output now g'
     | Audio => audio_output now now_hb g = audio_output now now_hb g'
     end
  /\ status_of k (fst (status now_f now_a g))
     = status_of k (fst (status now_f now_a g')).
Proof.
  intros g g'.
  destruct (run_filter_slot k evs s s eq_refl eq_refl) as [Hp Ht].
  fold g g' in Hp, Ht.
  split; [exact Hp|]. split; [exact Ht|]. split.
  - destruct k; simpl in *.
    + apply video_output_slot; assumption.
    + apply audio_output_slot; assumption.
  - apply status_of_slot; assumption.
Qed.

(** X11.  Once a non-empty body has been uploaded at clock reading [t]
    and no later upload has replaced it, an iteration of the slot's
    generator at clock reading [now] sends that body exactly when
    [now - t] is below the slot's threshold, whatever else the server did
    before or since. *)
Theorem upload_is_streamed_while_fresh (k : Slot) (P : bytes) (t : Q)
    (s : Server) (before after : list Event) (now now_hb : Q) :
  P <> [] ->
  Forall (fun e => sets k e = false) after ->
  let g := globals (run s (before ++ set_event k P t :: after)) in
  match k with
  | Video =>
      (video_output now g = frame_header ++ P ++ CRLF <-> (now - t < 10)%Q)
      /\ ((10 <= now - t)%Q -> video_output now g = frame_header ++ CRLF)
  | Audio =>
      (audio_output now now_hb g
       = audio_event (Base64.decode (Base64.b64encode P))
       <-> (now - t < 5)%Q)
      /\ ((5 <= now - t)%Q ->
          audio_output now now_hb g = heartbeat_event now_hb)
  end.
Proof.
  intros HP Hafter g.
  assert (Hslot : payload k g = Some P /\ stamp k g = t).
  { unfold g. rewrite run_app. simpl.
    destruct (run_keeps k after (step (run s before) (set_event k P t)) Hafter)
      as [-> ->].
    apply step_set, HP. }
  destruct Hslot as [Hp Ht].
  destruct k; simpl in Hp, Ht.
  - unfold video_output, gen_frames_iter, bind, get_frame, read, ret; simpl.
    rewrite Hp, Ht. unfold FRAME_EXPIRY_SECONDS.
    destruct (Qltb (now - t) 10) eqn:E; simpl.
    + apply Qltb_lt in E. split; [tauto|].
      intros H. exfalso. apply (Qlt_not_le _ _ E H).
    + apply Qltb_ge in E. split; [|reflexivity]. split.
      * intros H. symmetry in H. apply part_with_payload in H. contradiction.
      * intros H. exfalso. apply (Qlt_not_le _ _ H E).
  - unfold audio_output, gen_audio_iter, bind, get_audio, read, ret; simpl.
    rewrite Hp, Ht. unfold AUDIO_EXPIRY_SECONDS.
    destruct (Qltb (now - t) 5) eqn:E; simpl.
    + apply Qltb_lt in E. split; [tauto|].
      intros H. exfalso. apply (Qlt_not_le _ _ E H).
    + apply Qltb_ge in E. split; [|reflexivity]. split.
      * intros H. exfalso. apply (heartbeat_is_not_audio _ _ H).
      * intros H. exfalso. apply (Qlt_not_le _ _ H E).
Qed.

(** ** The counters and the open sessions *)

Lemma run_counter (k : Slot) (evs : list Event) (s : Server) :
  counter k (globals (run s evs)) - live (sessions k (run s evs))
  = counter k (globals s) - live (sessions k s).
Proof.
  revert s. induction evs as [|e evs IH]; intros s; [reflexivity|].
  simpl. rewrite IH. apply step_counter.
Qed.

Lemma live_bounds (l : list GenState) : 0 <= live l <= Z.of_nat (length l).
Proof.
  induction l as [|st l IH]; [unfold live; simpl; lia|].
  rewrite live_cons. simpl length. destruct st; simpl started; lia.
Qed.

Lemma step_sessions_length (k : Slot) (s : Server) (e : Event) :
  length (sessions k (step s e))
  = (length (sessions k s) + if opens k e then 1 else 0)%nat.
Proof.
  destruct e as [d t|d t|nf na| | |i t|i how|i t hb|i how]; simpl.
  - destruct k; simpl; lia.
  - destruct k; simpl; lia.
  - destruct k; simpl; lia.
  - destruct k; simpl; [rewrite length_app; simpl|]; lia.
  - destruct k; simpl; [|rewrite length_app; simpl]; lia.
  - destruct (video_sessions s !! i) as [st|]; [|destruct k; simpl; lia].
    destruct (gen_frames_next _ _ _) as [r g'].
    destruct k; simpl; [rewrite length_insert|]; lia.
  - destruct (video_sessions s !! i) as [st|]; [|destruct k; simpl; lia].
    destruct (gen_frames_exit _ _ _) as [r g'].
    destruct k; simpl; [rewrite length_insert|]; lia.
  - destruct (audio_sessions s !! i) as [st|]; [|destruct k; simpl; lia].
    destruct (gen_audio_next _ _ _ _) as [r g'].
    destruct k; simpl; [|rewrite length_insert]; lia.
  - destruct (audio_sessions s !! i) as [st|]; [|destruct k; simpl; lia].
    destruct (gen_audio_exit _ _ _) as [r g'].
    destruct k; simpl; [|rewrite length_insert]; lia.
Qed.

Lemma run_sessions_length (k : Slot) (evs : list Event) (s : Server) :
  length (sessions k (run s evs))
  = (length (sessions k s) + length (List.filter (opens k) evs))%nat.
Proof.
  revert s. induction evs as [|e evs IH]; intros s; [simpl; lia|].
  simpl. rewrite IH, step_sessions_length.
  destruct (opens k e); simpl; lia.
Qed.

(** X3.  Whatever has happened since start-up, each connection counter
    equals the number of generators of its stream type that have yielded
    and have not been terminated; it is never negative and never more
    than the number of stream requests received, each of which created
    one generator; and [status] reports these two numbers. *)
Theorem counter_counts_live_sessions (k : Slot) (evs : list Event)
    (now_f now_a : Q) :
  counter k (globals (run boot evs)) = live (sessions k (run boot evs))
  /\ 0 <= counter k (globals (run boot evs))
       <= Z.of_nat (length (List.filter (opens k) evs))
  /\ length (sessions k (run boot evs))
     = length (List.filter (opens k) evs)
  /\ j_clients (fst (status now_f now_a (globals (run boot evs))))
     = live (video_sessions (run boot evs))
  /\ j_audio_clients (fst (status now_f now_a (globals (run boot evs))))
     = live (audio_sessions (run boot evs)).
Proof.
  assert (Hc : forall k', counter k' (globals (run boot evs))
                          = live (sessions k' (run boot evs))).
  { intros k'. pose proof (run_counter k' evs boot) as H.
    destruct k'; simpl in *; unfold live in H at 2; simpl in H; lia. }
  assert (Hl : length (sessions k (run boot evs))
               = length (List.filter (opens k) evs)).
  { rewrite run_sessions_length. destruct k; reflexivity. }
  split; [apply Hc|]. split.
  - rewrite Hc, <- Hl. apply live_bounds.
  - split; [exact Hl|]. split; [apply (Hc Video)|apply (Hc Audio)].
Qed.

Lemma run_open_streams (n : nat) (s : Server) :
  run s (open_streams n)
  = {| globals := globals s;
       video_sessions := video_sessions s ++ replicate n Created;
       audio_sessions := audio_sessions s |}.
Proof.
  revert s. induction n as [|n IH]; intros s.
  - simpl. rewrite app_nil_r. destruct s; reflexivity.
  - unfold open_streams in *. simpl. rewrite IH. simpl.
    rewrite <- app_assoc. reflexivity.
Qed.

Lemma run_start_streams (now : Q) (m i : nat) (s : Server) :
  video_sessions s = replicate i Suspended ++ replicate m Created ->
  video_sessions (run s (map (fun j => EFrameNext j now) (seq i m)))
  = replicate (i + m) Suspended
  /\ clients_count (globals (run s (map (fun j => EFrameNext j now) (seq i m))))
     = clients_count (globals s) + Z.of_nat m.
Proof.
  revert i s. induction m as [|m IH]; intros i s Hs.
  - simpl. rewrite Hs, Nat.add_0_r, app_nil_r. split; [reflexivity|lia].
  - change (run s (map (fun j => EFrameNext j now) (seq i (S m))))
      with (run (step s (EFrameNext i now))
              (map (fun j => EFrameNext j now) (seq (S i) m))).
    assert (Hi : video_sessions s !! i = Some Created).
    { rewrite Hs, lookup_app_r by (rewrite length_replicate; lia).
      rewrite length_replicate, Nat.sub_diag. reflexivity. }
    destruct (gen_frames_next_effect Created now (globals s)) as [Hg Hst].
    destruct (IH (S i) (step s (EFrameNext i now))) as [IH1 IH2].
    { simpl. rewrite Hi.
      destruct (gen_frames_next Created now (globals s)) as [[o st'] g'].
      simpl in *. subst st' g'. rewrite Hs.
      rewrite insert_app_r_alt by (rewrite length_replicate; lia).
      rewrite length_replicate, Nat.sub_diag. simpl.
      rewrite app_comm_cons, replicate_cons_app, <- app_assoc. reflexivity. }
    split.
    + rewrite IH1. f_equal. lia.
    + rewrite IH2. simpl. rewrite Hi.
      destruct (gen_frames_next Created now (globals s)) as [[o st'] g'].
      simpl in *. subst g'. simpl. lia.
Qed.

(** X4.  [MAX_CLIENTS] is not enforced: when [n] viewers request
    [/stream] after start-up and each reads its first part, all [n]
    generators are running and [clients_count] is [n], for every [n]; so
    the count can pass [MAX_CLIENTS]. *)
Theorem max_clients_is_not_enforced (n : nat) (now : Q) :
  video_sessions (run boot (open_streams n ++ start_streams n now))
  = replicate n Suspended
  /\ clients_count (globals (run boot (open_streams n ++ start_streams n now)))
     = Z.of_nat n
  /\ exists evs : list Event,
       MAX_CLIENTS < clients_count (globals (run boot evs)).
Proof.
  assert (H : forall m,
            video_sessions (run boot (open_streams m ++ start_streams m now))
            = replicate m Suspended
            /\ clients_count
                 (globals (run boot (open_streams m ++ start_streams m now)))
               = Z.of_nat m).
  { intros m. rewrite run_app, run_open_streams. unfold start_streams.
    apply (run_start_streams now m 0). reflexivity. }
  destruct (H n) as [H1 H2]. split; [exact H1|]. split; [exact H2|].
  exists (open_streams 11 ++ start_streams 11 now).
  destruct (H 11%nat) as [_ ->]. unfold MAX_CLIENTS. lia.
Qed.

Lemma rank_next (st : GenState) :
  (rank st <= rank (match st with Finished => Finished | _ => Suspended end))%nat.
Proof. destruct st; simpl; lia. Qed.

Lemma step_rank (k : Slot) (s : Server) (e : Event) (i : nat)
    (st : GenState) :
  sessions k s !! i = Some st ->
  exists st', sessions k (step s e) !! i = Some st'
              /\ (rank st <= rank st')%nat.
Proof.
  intros Hi.
  assert (Hsame : exists st', sessions k s !! i = Some st'
                              /\ (rank st <= rank st')%nat)
    by (exists st; split; [exact Hi|lia]).
  assert (Hins : forall (l : list GenState) (j : nat) (new old : GenState),
            l !! i = Some st -> l !! j = Some old ->
            (rank old <= rank new)%nat ->
            exists st', <[j := new]> l !! i = Some st'
                        /\ (rank st <= rank st')%nat).
  { intros l j new old Hl Hj Hr. destruct (decide (j = i)) as [->|Hne].
    - exists new. split.
      + apply list_lookup_insert_eq. eapply lookup_lt_Some; eassumption.
      + rewrite Hl in Hj. injection Hj as ->. exact Hr.
    - exists st. split; [|lia]. rewrite list_lookup_insert_ne; assumption. }
  destruct e as [d t|d t|nf na| | |j t|j how|j t hb|j how]; simpl;
    try (destruct k; exact Hsame).
  - destruct k; simpl in *; [|exact Hsame].
    exists st. split; [apply lookup_app_l_Some, Hi|lia].
  - destruct k; simpl in *; [exact Hsame|].
    exists st. split; [apply lookup_app_l_Some, Hi|lia].
  - destruct (video_sessions s !! j) as [old|] eqn:Hj; [|exact Hsame].
    destruct (gen_frames_next_effect old t (globals s)) as [_ Hst].
    destruct (gen_frames_next old t (globals s)) as [[o st'] g'].
    simpl in Hst. subst st'.
    destruct k; simpl in *; [|exact Hsame].
    apply (Hins _ _ _ old Hi Hj), rank_next.
  - destruct (video_sessions s !! j) as [old|] eqn:Hj; [|exact Hsame].
    rewrite gen_frames_exit_effect.
    destruct k; simpl in *; [|exact Hsame].
    apply (Hins _ _ _ old Hi Hj). destruct old; simpl; lia.
  - destruct (audio_sessions s !! j) as [old|] eqn:Hj; [|exact Hsame].
    destruct (gen_audio_next_effect old t hb (globals s)) as [_ Hst].
    destruct (gen_audio_next old t hb (globals s)) as [[o st'] g'].
    simpl in Hst. subst st'.
    destruct k; simpl in *; [exact Hsame|].
    apply (Hins _ _ _ old Hi Hj), rank_next.
  - destruct (audio_sessions s !! j) as [old|] eqn:Hj; [|exact Hsame].
    rewrite gen_audio_exit_effect.
    destruct k; simpl in *; [exact Hsame|].
    apply (Hins _ _ _ old Hi Hj). destruct old; simpl; lia.
Qed.

(** X5.  A generator only moves forward: along any run of events, one
    that exists stays where it is or goes from created to suspended to
    finished, never back; in particular a terminated generator stays
    terminated, and a started one is never again in the state in which
    its next resumption would count a client. *)
Theorem sessions_only_advance (k : Slot) (s : Server) (evs : list Event)
    (i : nat) (st : GenState) :
  sessions k s !! i = Some st ->
  exists st',
    sessions k (run s evs) !! i = Some st'
    /\ (rank st <= rank st')%nat
    /\ (st = Finished -> st' = Finished)
    /\ (st <> Created -> st' <> Created).
Proof.
  revert s st. induction evs as [|e evs IH]; intros s st Hi.
  - exists st. split; [exact Hi|]. split; [lia|]. split; trivial.
  - destruct (step_rank k s e i st Hi) as (st1 & H1 & Hr1).
    destruct (IH (step s e) st1 H1) as (st' & H2 & Hr2 & _).
    exists st'. split; [exact H2|]. split; [lia|]. split.
    + intros ->. destruct st'; simpl in *; try lia. reflexivity.
    + intros Hne ->. destruct st; simpl in *; try lia. congruence.
Qed.

(** ** What [status] says about a slot that is set *)

Lemma int_is_floor (q : Q) : (0 <= q)%Q -> int (Fin q) = Qfloor q.
Proof.
  destruct q as [n d]. unfold Qle; simpl. intros H.
  apply Z.quot_div_nonneg; lia.
Qed.

Lemma status_text_video (g : Globals) (d : bytes) (now_f now_a : Q) :
  current_frame g = Some d ->
  j_status (fst (status now_f now_a g))
  = if Qltb 10 (now_f - frame_time g)
    then "Camera offline (last frame "
           +:+ pretty (int (Fin (now_f - frame_time g))) +:+ "s ago)"
    else "Online".
Proof.
  intros H. unfold status, bind, read, ret. simpl fst. simpl j_status.
  rewrite H. reflexivity.
Qed.

Lemma status_text_audio (g : Globals) (d : bytes) (now_f now_a : Q) :
  current_audio g = Some d ->
  j_audio_status (fst (status now_f now_a g))
  = if Qltb 5 (now_a - audio_time g)
    then "Microphone offline (last audio "
           +:+ pretty (int (Fin (now_a - audio_time g))) +:+ "s ago)"
    else "Receiving audio".
Proof.
  intros H. unfold status, bind, read, ret. simpl fst. simpl j_audio_status.
  rewrite H. reflexivity.
Qed.

(** X7.  For a slot that holds a payload, [status] reports it offline
    exactly when its age is above the threshold, and the text then shows
    the whole seconds of that age, a number that is at least the
    threshold (10 for video, 5 for audio); at any age up to and including
    the threshold, also a negative one, it reports the slot as live. *)
Theorem status_offline_shows_whole_seconds (k : Slot) (g : Globals)
    (d : bytes) (now_f now_a : Q) :
  payload k g = Some d ->
  let age := match k with
             | Video => (now_f - frame_time g)%Q
             | Audio => (now_a - audio_time g)%Q
             end in
  let limit := match k with Video => 10%Q | Audio => 5%Q end in
  ((limit < age)%Q ->
   status_of k (fst (status now_f now_a g))
   = match k with
     | Video => "Camera offline (last frame " +:+ pretty (Qfloor age)
                  +:+ "s ago)"
     | Audio => "Microphone offline (last audio " +:+ pretty (Qfloor age)
                  +:+ "s ago)"
     end
   /\ Qfloor limit <= Qfloor age)
  /\ ((age <= limit)%Q ->
      status_of k (fst (status now_f now_a g))
      = match k with
        | Video => "Online"%string
        | Audio => "Receiving audio"%string
        end).
Proof.
  intros Hp age limit. subst age limit.
  destruct k; simpl in Hp; unfold status_of.
  - rewrite (status_text_video g d now_f now_a Hp). split; intros H.
    + apply Qltb_lt in H as Hb. rewrite Hb.
      rewrite int_is_floor
        by (apply Qlt_le_weak; eapply Qlt_trans; [|exact H]; reflexivity).
      split; [reflexivity|]. apply Qfloor_resp_le, Qlt_le_weak, H.
    + apply Qltb_ge in H. rewrite H. reflexivity.
  - rewrite (status_text_audio g d now_f now_a Hp). split; intros H.
    + apply Qltb_lt in H as Hb. rewrite Hb.
      rewrite int_is_floor
        by (apply Qlt_le_weak; eapply Qlt_trans; [|exact H]; reflexivity).
      split; [reflexivity|]. apply Qfloor_resp_le, Qlt_le_weak, H.
    + apply Qltb_ge in H. rewrite H. reflexivity.
Qed.

(** ** The base64 text of an audio event *)

Lemma list_ind3 {A : Type} (P : list A -> Prop) :
  P [] -> (forall x, P [x]) -> (forall x y, P [x; y]) ->
  (forall x y z l, P l -> P (x :: y :: z :: l)) ->
  forall l, P l.
Proof.
  intros H0 H1 H2 H3 l.
  assert (H : P l /\ (forall x, P (x :: l)) /\ (forall x y, P (x :: y :: l))).
  { induction l as [|a l (IH0 & IH1 & IH2)].
    - repeat split; auto.
    - split; [apply IH1|]. split; [intros x; apply IH2|].
      intros x y. apply H3, IH0. }
  apply H.
Qed.

Lemma sextet_in (n : N) :
  In (Base64.sextet n) (Base64.alphabet ++ [Base64.pad]).
Proof.
  unfold Base64.sextet. apply in_or_app.
  destruct (nth_in_or_default (N.to_nat n) Base64.alphabet Base64.pad)
    as [H| ->]; [left; exact H|right; left; reflexivity].
Qed.

Lemma pad_in : In Base64.pad (Base64.alphabet ++ [Base64.pad]).
Proof. apply in_or_app. right. left. reflexivity. Qed.

Lemma b64encode_chars (a : bytes) :
  Forall (fun c => In c (Base64.alphabet ++ [Base64.pad]))
    (Base64.b64encode a).
Proof.
  induction a as [|x|x y|x y z rest IH] using list_ind3.
  - apply List.Forall_nil.
  - change (Base64.b64encode [x])
      with [Base64.sextet (Base64.hi6 (Byte.to_N x));
            Base64.sextet (Base64.lo2_hi4 (Byte.to_N x) 0);
            Base64.pad; Base64.pad].
    apply List.Forall_cons; [apply sextet_in|].
    apply List.Forall_cons; [apply sextet_in|].
    apply List.Forall_cons; [apply pad_in|].
    apply List.Forall_cons; [apply pad_in|]. apply List.Forall_nil.
  - change (Base64.b64encode [x; y])
      with [Base64.sextet (Base64.hi6 (Byte.to_N x));
            Base64.sextet (Base64.lo2_hi4 (Byte.to_N x) (Byte.to_N y));
            Base64.sextet (Base64.lo4_hi2 (Byte.to_N y) 0);
            Base64.pad].
    apply List.Forall_cons; [apply sextet_in|].
    apply List.Forall_cons; [apply sextet_in|].
    apply List.Forall_cons; [apply sextet_in|].
    apply List.Forall_cons; [apply pad_in|]. apply List.Forall_nil.
  - change (Base64.b64encode (x :: y :: z :: rest))
      with (Base64.sextet (Base64.hi6 (Byte.to_N x))
            :: Base64.sextet (Base64.lo2_hi4 (Byte.to_N x) (Byte.to_N y))
            :: Base64.sextet (Base64.lo4_hi2 (Byte.to_N y) (Byte.to_N z))
            :: Base64.sextet (Base64.lo6 (Byte.to_N z))
            :: Base64.b64encode rest).
    apply List.Forall_cons; [apply sextet_in|].
    apply List.Forall_cons; [apply sextet_in|].
    apply List.Forall_cons; [apply sextet_in|].
    apply List.Forall_cons; [apply sextet_in|]. exact IH.
Qed.

Lemma b64encode_length (a : bytes) :
  length (Base64.b64encode a) = (4 * ((length a + 2) / 3))%nat.
Proof.
  induction a as [|x|x y|x y z rest IH] using list_ind3;
    try reflexivity.
  change (length (Base64.b64encode (x :: y :: z :: rest)))
    with (4 + length (Base64.b64encode rest))%nat.
  rewrite IH. simpl length.
  replace (S (S (S (length rest))) + 2)%nat
    with (length rest + 2 + 1 * 3)%nat by lia.
  rewrite Nat.div_add by lia. lia.
Qed.

Lemma string_of_list_byte_length (l : bytes) :
  String.length (string_of_list_byte l) = length l.
Proof.
  unfold string_of_list_byte.
  induction l as [|x l IH]; simpl; [reflexivity|]. rewrite IH. reflexivity.
Qed.

(** X8.  The event sent for a fresh chunk is the fixed opening text, a
    base64 text and the fixed closing text ending in a blank line.  The
    base64 text is four characters for every three bytes of the chunk,
    rounded up, all of them letters, digits, [+], [/] or [=]: so whatever
    bytes were uploaded, no line feed and no quote occurs inside the
    event before its end. *)
Theorem audio_event_payload_is_base64 (g : Globals) (a : bytes)
    (now now_hb : Q) :
  current_audio g = Some a ->
  (now - audio_time g < 5)%Q ->
  exists text : string,
    audio_output now now_hb g
    = "data: {'audio': '" +:+ text +:+ "'}" +:+ LFLF
    /\ String.length text = (4 * ((length a + 2) / 3))%nat
    /\ Forall (fun c => In c (Base64.alphabet ++ [Base64.pad]))
         (list_byte_of_string text)
    /\ ~ In x0a (list_byte_of_string text)
    /\ ~ In x27 (list_byte_of_string text).
Proof.
  intros Ha Hage. exists (Base64.decode (Base64.b64encode a)).
  assert (Hall : Forall (fun c => In c (Base64.alphabet ++ [Base64.pad]))
                   (list_byte_of_string
                      (Base64.decode (Base64.b64encode a)))).
  { unfold Base64.decode. rewrite list_byte_of_string_of_list_byte.
    apply b64encode_chars. }
  split.
  { unfold audio_output, gen_audio_iter, bind, get_audio, read, ret; simpl.
    rewrite Ha. apply Qltb_lt in Hage. unfold AUDIO_EXPIRY_SECONDS.
    rewrite Hage. reflexivity. }
  split.
  { unfold Base64.decode. rewrite string_of_list_byte_length.
    apply b64encode_length. }
  split; [exact Hall|].
  rewrite List.Forall_forall in Hall.
  split; intros Hin; apply Hall in Hin; vm_compute in Hin;
    repeat (destruct Hin as [Hin|Hin]; [discriminate Hin|]); exact Hin.
Qed.

(** ** The base64 text loses nothing *)

Lemma In_below (n : nat) (k : N) : (k < N.of_nat n)%N -> In k (below n).
Proof.
  intros H. unfold below. apply in_map_iff. exists (N.to_nat k).
  split; [apply N2Nat.id|]. apply in_seq. lia.
Qed.

Lemma all_below_spec (n : nat) (p : N -> bool) :
  all_below n p = true -> forall k, (k < N.of_nat n)%N -> p k = true.
Proof.
  unfold all_below. intros H k Hk.
  rewrite forallb_forall in H. apply H, In_below, Hk.
Qed.

Lemma sextet_facts (k : N) :
  (k < 64)%N ->
  Base64Inverse.unsextet (Base64.sextet k) = k
  /\ Byte.eqb (Base64.sextet k) Base64.pad = false.
Proof.
  intros Hk.
  assert (H : all_below 64
                (fun k => N.eqb (Base64Inverse.unsextet (Base64.sextet k)) k
                          && negb (Byte.eqb (Base64.sextet k) Base64.pad))
              = true) by (vm_compute; reflexivity).
  apply (all_below_spec 64 _ H) in Hk.
  apply andb_true_iff in Hk. destruct Hk as [H1 H2].
  apply N.eqb_eq in H1. apply negb_true_iff in H2. split; assumption.
Qed.

Lemma byte_pair_facts (x y : N) :
  (x < 256)%N -> (y < 256)%N ->
  (Base64.hi6 x < 64)%N
  /\ (Base64.lo6 x < 64)%N
  /\ (Base64.lo2_hi4 x y < 64)%N
  /\ (Base64.lo4_hi2 x y < 64)%N
  /\ Base64Inverse.first (Base64.hi6 x) (Base64.lo2_hi4 x y) = x
  /\ N.land (Base64.lo2_hi4 x y) 15 = N.shiftr y 4
  /\ N.shiftr (Base64.lo4_hi2 x y) 2 = N.land x 15
  /\ Base64Inverse.third (Base64.lo4_hi2 x y) (Base64.lo6 y) = y
  /\ N.lor (N.shiftl (N.shiftr x 4) 4) (N.land x 15) = x.
Proof.
  intros Hx Hy.
  assert (H : all_below 256 (fun x => all_below 256 (fun y =>
                N.ltb (Base64.hi6 x) 64
                && N.ltb (Base64.lo6 x) 64
                && N.ltb (Base64.lo2_hi4 x y) 64
                && N.ltb (Base64.lo4_hi2 x y) 64
                && N.eqb (Base64Inverse.first (Base64.hi6 x)
                            (Base64.lo2_hi4 x y)) x
                && N.eqb (N.land (Base64.lo2_hi4 x y) 15) (N.shiftr y 4)
                && N.eqb (N.shiftr (Base64.lo4_hi2 x y) 2) (N.land x 15)
                && N.eqb (Base64Inverse.third (Base64.lo4_hi2 x y)
                            (Base64.lo6 y)) y
                && N.eqb (N.lor (N.shiftl (N.shiftr x 4) 4) (N.land x 15)) x))
              = true) by (vm_compute; reflexivity).
  apply (all_below_spec 256 _ H) in Hx.
  apply (all_below_spec 256 _ Hx) in Hy.
  repeat (apply andb_true_iff in Hy; destruct Hy as [Hy ?]).
  repeat match goal with
         | H : N.ltb _ _ = true |- _ => apply N.ltb_lt in H
         | H : N.eqb _ _ = true |- _ => apply N.eqb_eq in H
         end.
  repeat split; assumption.
Qed.

Lemma to_N_lt (x : byte) : (Byte.to_N x < 256)%N.
Proof. pose proof (Byte.to_N_bounded x). lia. Qed.

Lemma byte_of_to_N (x : byte) : Base64Inverse.byte_of (Byte.to_N x) = x.
Proof. unfold Base64Inverse.byte_of. rewrite Byte.of_to_N. reflexivity. Qed.

Lemma b64decode_one (c1 c2 : byte) :
  Base64Inverse.b64decode [c1; c2; Base64.pad; Base64.pad]
  = [Base64Inverse.byte_of
       (Base64Inverse.first (Base64Inverse.unsextet c1)
          (Base64Inverse.unsextet c2))].
Proof. reflexivity. Qed.

Lemma b64decode_two (c1 c2 c3 : byte) :
  Byte.eqb c3 Base64.pad = false ->
  Base64Inverse.b64decode [c1; c2; c3; Base64.pad]
  = [Base64Inverse.byte_of
       (Base64Inverse.first (Base64Inverse.unsextet c1)
          (Base64Inverse.unsextet c2));
     Base64Inverse.byte_of
       (Base64Inverse.second (Base64Inverse.unsextet c2)
          (Base64Inverse.unsextet c3))].
Proof.
  intros H.
  change (Base64Inverse.b64decode [c1; c2; c3; Base64.pad])
    with (if Byte.eqb c3 Base64.pad
          then [Base64Inverse.byte_of
                  (Base64Inverse.first (Base64Inverse.unsextet c1)
                     (Base64Inverse.unsextet c2))]
          else [Base64Inverse.byte_of
                  (Base64Inverse.first (Base64Inverse.unsextet c1)
                     (Base64Inverse.unsextet c2));
                Base64Inverse.byte_of
                  (Base64Inverse.second (Base64Inverse.unsextet c2)
                     (Base64Inverse.unsextet c3))]).
  rewrite H. reflexivity.
Qed.

Lemma b64decode_three (c1 c2 c3 c4 : byte) (rest : bytes) :
  Byte.eqb c3 Base64.pad = false ->
  Byte.eqb c4 Base64.pad = false ->
  Base64Inverse.b64decode (c1 :: c2 :: c3 :: c4 :: rest)
  = Base64Inverse.byte_of
      (Base64Inverse.first (Base64Inverse.unsextet c1)
         (Base64Inverse.unsextet c2))
    :: Base64Inverse.byte_of
         (Base64Inverse.second (Base64Inverse.unsextet c2)
            (Base64Inverse.unsextet c3))
    :: Base64Inverse.byte_of
         (Base64Inverse.third (Base64Inverse.unsextet c3)
            (Base64Inverse.unsextet c4))
    :: Base64Inverse.b64decode rest.
Proof.
  intros H3 H4.
  change (Base64Inverse.b64decode (c1 :: c2 :: c3 :: c4 :: rest))
    with (if Byte.eqb c3 Base64.pad
          then [Base64Inverse.byte_of
                  (Base64Inverse.first (Base64Inverse.unsextet c1)
                     (Base64Inverse.unsextet c2))]
          else if Byte.eqb c4 Base64.pad
          then [Base64Inverse.byte_of
                  (Base64Inverse.first (Base64Inverse.unsextet c1)
                     (Base64Inverse.unsextet c2));
                Base64Inverse.byte_of
                  (Base64Inverse.second (Base64Inverse.unsextet c2)
                     (Base64Inverse.unsextet c3))]
          else Base64Inverse.byte_of
                 (Base64Inverse.first (Base64Inverse.unsextet c1)
                    (Base64Inverse.unsextet c2))
               :: Base64Inverse.byte_of
                    (Base64Inverse.second (Base64Inverse.unsextet c2)
                       (Base64Inverse.unsextet c3))
               :: Base64Inverse.byte_of
                    (Base64Inverse.third (Base64Inverse.unsextet c3)
                       (Base64Inverse.unsextet c4))
               :: Base64Inverse.b64decode rest).
  rewrite H3, H4. reflexivity.
Qed.

(** The second byte of a group comes back from its second and third
    characters. *)
Lemma second_back (x y z : N) :
  (x < 256)%N -> (y < 256)%N -> (z < 256)%N ->
  Base64Inverse.second (Base64.lo2_hi4 x y) (Base64.lo4_hi2 y z) = y.
Proof.
  intros Hx Hy Hz. unfold Base64Inverse.second.
  destruct (byte_pair_facts x y Hx Hy) as (_ & _ & _ & _ & _ & -> & _).
  destruct (byte_pair_facts y z Hy Hz)
    as (_ & _ & _ & _ & _ & _ & -> & _ & Hjoin).
  exact Hjoin.
Qed.

Lemma b64decode_b64encode (a : bytes) :
  Base64Inverse.b64decode (Base64.b64encode a) = a.
Proof.
  assert (H0 : (0 < 256)%N) by lia.
  induction a as [|x|x y|x y z rest IH] using list_ind3.
  - reflexivity.
  - change (Base64.b64encode [x])
      with [Base64.sextet (Base64.hi6 (Byte.to_N x));
            Base64.sextet (Base64.lo2_hi4 (Byte.to_N x) 0);
            Base64.pad; Base64.pad].
    rewrite b64decode_one.
    destruct (byte_pair_facts _ _ (to_N_lt x) H0)
      as (B1 & _ & B2 & _ & F & _).
    destruct (sextet_facts _ B1) as [-> _].
    destruct (sextet_facts _ B2) as [-> _].
    rewrite F, byte_of_to_N. reflexivity.
  - change (Base64.b64encode [x; y])
      with [Base64.sextet (Base64.hi6 (Byte.to_N x));
            Base64.sextet (Base64.lo2_hi4 (Byte.to_N x) (Byte.to_N y));
            Base64.sextet (Base64.lo4_hi2 (Byte.to_N y) 0);
            Base64.pad].
    destruct (byte_pair_facts _ _ (to_N_lt x) (to_N_lt y))
      as (B1 & _ & B2 & _ & F & _).
    destruct (byte_pair_facts _ _ (to_N_lt y) H0) as (_ & _ & _ & B3 & _).
    destruct (sextet_facts _ B3) as [U3 P3].
    rewrite (b64decode_two _ _ _ P3), U3.
    destruct (sextet_facts _ B1) as [-> _].
    destruct (sextet_facts _ B2) as [-> _].
    rewrite F, (second_back _ _ 0 (to_N_lt x) (to_N_lt y) H0).
    rewrite !byte_of_to_N. reflexivity.
  - change (Base64.b64encode (x :: y :: z :: rest))
      with (Base64.sextet (Base64.hi6 (Byte.to_N x))
            :: Base64.sextet (Base64.lo2_hi4 (Byte.to_N x) (Byte.to_N y))
            :: Base64.sextet (Base64.lo4_hi2 (Byte.to_N y) (Byte.to_N z))
            :: Base64.sextet (Base64.lo6 (Byte.to_N z))
            :: Base64.b64encode rest).
    destruct (byte_pair_facts _ _ (to_N_lt x) (to_N_lt y))
      as (B1 & _ & B2 & _ & F & _).
    destruct (byte_pair_facts _ _ (to_N_lt y) (to_N_lt z))
      as (_ & _ & _ & B3 & _ & _ & _ & T & _).
    destruct (byte_pair_facts _ _ (to_N_lt z) H0) as (_ & B4 & _).
    destruct (sextet_facts _ B3) as [U3 P3].
    destruct (sextet_facts _ B4) as [U4 P4].
    rewrite (b64decode_three _ _ _ _ _ P3 P4), U3, U4, IH.
    destruct (sextet_facts _ B1) as [-> _].
    destruct (sextet_facts _ B2) as [-> _].
    rewrite F, T, (second_back _ _ _ (to_N_lt x) (to_N_lt y) (to_N_lt z)).
    rewrite !byte_of_to_N. reflexivity.
Qed.

Lemma string_length_app (s1 s2 : string) :
  String.length (s1 +:+ s2) = (String.length s1 + String.length s2)%nat.
Proof.
  induction s1 as [|c s1 IH]; [reflexivity|].
  change (String c s1 +:+ s2) with (String c (s1 +:+ s2)).
  simpl String.length. rewrite IH. reflexivity.
Qed.

Lemma string_app_inv_tail (x y s : string) : x +:+ s = y +:+ s -> x = y.
Proof.
  revert y. induction x as [|c x IH]; intros [|c' y] H.
  - reflexivity.
  - apply (f_equal String.length) in H. rewrite !string_length_app in H.
    simpl String.length in H. lia.
  - apply (f_equal String.length) in H. rewrite !string_length_app in H.
    simpl String.length in H. lia.
  - change (String c x +:+ s) with (String c (x +:+ s)) in H.
    change (String c' y +:+ s) with (String c' (y +:+ s)) in H.
    injection H as -> H. f_equal. apply IH, H.
Qed.

Lemma string_app_inv_head (s x y : string) : s +:+ x = s +:+ y -> x = y.
Proof.
  induction s as [|c s IH]; intros H; [exact H|].
  change (String c s +:+ x) with (String c (s +:+ x)) in H.
  change (String c s +:+ y) with (String c (s +:+ y)) in H.
  injection H as H. apply IH, H.
Qed.

(** X9.  The base64 text of a chunk determines the chunk: decoding it
    returns the chunk byte for byte, so two chunks with the same text,
    or with the same audio event, are the same chunk. *)
Theorem audio_event_determines_chunk (a a' : bytes) :
  Base64Inverse.b64decode (Base64.b64encode a) = a
  /\ (Base64.b64encode a = Base64.b64encode a' -> a = a')
  /\ (audio_event (Base64.decode (Base64.b64encode a))
      = audio_event (Base64.decode (Base64.b64encode a')) -> a = a').
Proof.
  assert (Hinj : Base64.b64encode a = Base64.b64encode a' -> a = a').
  { intros H. rewrite <- (b64decode_b64encode a), H.
    apply b64decode_b64encode. }
  split; [apply b64decode_b64encode|]. split; [exact Hinj|].
  intros H. apply Hinj. unfold audio_event in H.
  apply string_app_inv_head, string_app_inv_tail in H.
  rename H into Hd. unfold Base64.decode in Hd.
  rewrite <- (list_byte_of_string_of_list_byte (Base64.b64encode a)), Hd.
  apply list_byte_of_string_of_list_byte.
Qed.

(** ** The viewer's samples *)

Lemma list_ind2 {A : Type} (P : list A -> Prop) :
  P [] -> (forall x, P [x]) ->
  (forall x y l, P l -> P (x :: y :: l)) ->
  forall l, P l.
Proof.
  intros H0 H1 H2 l.
  assert (H : P l /\ forall x, P (x :: l)).
  { induction l as [|a l (IH0 & IH1)].
    - split; auto.
    - split; [apply IH1|]. intros x. apply H2, IH0. }
  apply H.
Qed.

Lemma low_byte (c : Z) : Z.land c 255 = c mod 256.
Proof. change 255 with (Z.ones 8). rewrite Z.land_ones by lia. reflexivity. Qed.

Lemma lor_shift_bytes (lo hi : Z) :
  0 <= lo < 256 -> 0 <= hi < 256 ->
  Z.lor lo (Z.shiftl hi 8) = lo + 256 * hi.
Proof.
  intros Hlo Hhi.
  assert (H : all_below 256 (fun x => all_below 256 (fun y =>
                Z.eqb (Z.lor (Z.of_N x) (Z.shiftl (Z.of_N y) 8))
                      (Z.of_N x + 256 * Z.of_N y)))
              = true) by (vm_compute; reflexivity).
  assert (Hx : (Z.to_N lo < N.of_nat 256)%N) by lia.
  assert (Hy : (Z.to_N hi < N.of_nat 256)%N) by lia.
  apply (all_below_spec 256 _ H) in Hx.
  apply (all_below_spec 256 _ Hx) in Hy.
  apply Z.eqb_eq in Hy. rewrite !Z2N.id in Hy by lia. exact Hy.
Qed.

Lemma sample_value (c0 c1 : Z) :
  Viewer.sample c0 c1 = c0 mod 256 + 256 * (c1 mod 256).
Proof.
  unfold Viewer.sample. rewrite !low_byte.
  apply lor_shift_bytes; apply Z.mod_pos_bound; lia.
Qed.

Lemma signedSample_range (c0 c1 : Z) :
  -32768 <= Viewer.signedSample (Viewer.sample c0 c1) <= 32767.
Proof.
  rewrite sample_value. unfold Viewer.signedSample.
  pose proof (Z.mod_pos_bound c0 256). pose proof (Z.mod_pos_bound c1 256).
  destruct (Z.ltb_spec 32767 (c0 mod 256 + 256 * (c1 mod 256))); lia.
Qed.

(** X10.  Whatever character codes the decoded chunk holds, the viewer
    makes one sample of every two characters, dropping a trailing odd
    one; every sample is a 16-bit signed integer, and every value it
    writes to the audio buffer is at least -1 and below 1. *)
Theorem viewer_samples_are_int16 (audioData : list Z) :
  length (Viewer.signedSamples audioData) = (length audioData / 2)%nat
  /\ Forall (fun v => -32768 <= v <= 32767) (Viewer.signedSamples audioData)
  /\ Forall (fun v => (-1 <= v)%Q /\ (v < 1)%Q) (Viewer.pcmData audioData).
Proof.
  unfold Viewer.pcmData.
  induction audioData as [|c0|c0 c1 rest (IH1 & IH2 & IH3)] using list_ind2.
  - repeat split; constructor.
  - repeat split; constructor.
  - change (Viewer.signedSamples (c0 :: c1 :: rest))
      with (Viewer.signedSample (Viewer.sample c0 c1)
            :: Viewer.signedSamples rest).
    pose proof (signedSample_range c0 c1) as Hr.
    split; [|split].
    + simpl length. rewrite IH1.
      replace (S (S (length rest))) with (length rest + 1 * 2)%nat by lia.
      rewrite Nat.div_add by lia. lia.
    + apply List.Forall_cons; [exact Hr|exact IH2].
    + change (map (fun v : Z => v # 32768)
                (Viewer.signedSample (Viewer.sample c0 c1)
                 :: Viewer.signedSamples rest))
        with ((Viewer.signedSample (Viewer.sample c0 c1) # 32768)
              :: map (fun v : Z => v # 32768) (Viewer.signedSamples rest)).
      apply List.Forall_cons; [|exact IH3].
      unfold Qle, Qlt; simpl Qnum; simpl Qden. lia.
Qed.

(** X12.  Two character codes below 256 are read as a little-endian
    two's-complement number: low code plus 256 times high code, less
    65536 when the high code is 128 or more.  So the two bytes of any
    16-bit signed sample give that sample back. *)
Theorem viewer_reads_little_endian_int16 (lo hi v : Z) :
  0 <= lo < 256 -> 0 <= hi < 256 ->
  -32768 <= v <= 32767 ->
  Viewer.signedSample (Viewer.sample lo hi)
  = (if hi <? 128 then lo + 256 * hi else lo + 256 * hi - 65536)
  /\ Viewer.signedSample (Viewer.sample (v mod 256) ((v / 256) mod 256)) = v.
Proof.
  intros Hlo Hhi Hv. split.
  - rewrite sample_value, !Z.mod_small by lia. unfold Viewer.signedSample.
    destruct (Z.ltb_spec 32767 (lo + 256 * hi));
      destruct (Z.ltb_spec hi 128); lia.
  - rewrite sample_value. unfold Viewer.signedSample.
    rewrite (Z.mod_mod v 256) by lia.
    rewrite (Z.mod_mod (v / 256) 256) by lia.
    pose proof (Z.div_mod v 256 ltac:(lia)) as Hdm.
    pose proof (Z.mod_pos_bound v 256 ltac:(lia)) as Hm.
    pose proof (Z.div_mod (v / 256) 256 ltac:(lia)) as Hdm2.
    pose proof (Z.mod_pos_bound (v / 256) 256 ltac:(lia)) as Hm2.
    assert (Hq : -128 <= v / 256 <= 127) by lia.
    assert (Hq2 : v / 256 / 256 = -1 \/ v / 256 / 256 = 0) by lia.
    destruct (Z.ltb_spec 32767 (v mod 256 + 256 * ((v / 256) mod 256))); lia.
Qed.

End Relay.

(** * The theorems at concrete inputs *)

Lemma set_then_get_witness :
  let before := [EStream; EUpload (b "old") 50] in
  let after := [EFrameNext 0 101; EStatus 102 102; EUpload [] 103;
                EUploadAudio (b "pcm") 104] in
  b "JPEG" <> []
  /\ Forall (fun e => sets Video e = false) after
  /\ fst (get Video
            (globals (run show_q show_q boot
                        (before ++ set_event Video (b "JPEG") 100 :: after))))
     = (Some (b "JPEG"), 100%Q).
Proof.
  intros before after.
  assert (H1 : b "JPEG" <> []) by (vm_compute; discriminate).
  assert (H2 : Forall (fun e => sets Video e = false) after)
    by (repeat constructor).
  split; [exact H1|]. split; [exact H2|].
  exact (proj2 (proj2
    (set_then_get show_q show_q Video (b "JPEG") 100 boot before after
       H1 H2))).
Defined.


Lemma video_part_format_witness :
  Created <> Finished
  /\ exists payload : bytes,
       fst (gen_frames_next Created 105 both_at_100)
       = (Some (b "--frame" ++ [x0d; x0a]
                ++ b "Content-Type: image/jpeg" ++ [x0d; x0a; x0d; x0a]
                ++ payload ++ [x0d; x0a]),
          Suspended)
       /\ payload
          = match current_frame both_at_100 with
            | Some f =>
                if Qlt_le_dec (105 - frame_time both_at_100) 10
                then f else []
            | None => []
            end.
Proof.
  assert (H : Created <> Finished) by discriminate.
  split; [exact H|].
  exact (video_part_format Created 105 both_at_100 H).
Defined.

Lemma no_audio_means_heartbeats_witness :
  let evs := [EUpload (b "jpg") 1; EAudioStream; EUploadAudio [] 2;
              EAudioNext 0 3 3] in
  Forall (fun e => sets Audio e = false) evs
  /\ Created <> Finished
  /\ fst (gen_audio_next show_q Created 4 5
            (globals (run show_q show_q boot evs)))
     = (Some ("data: {'heartbeat': 5/1}"
                +:+ String "010"%char (String "010"%char EmptyString)),
        Suspended).
Proof.
  intros evs.
  assert (H1 : Forall (fun e => sets Audio e = false) evs)
    by (repeat constructor).
  assert (H2 : Created <> Finished) by discriminate.
  split; [exact H1|]. split; [exact H2|].
  exact (proj1 (proj2 (proj2 (proj2
    (no_audio_means_heartbeats show_q show_q evs Created 4 5 6 7 H1 H2))))).
Defined.

Lemma slot_stays_set_witness :
  let evs1 := [EStream] in
  let evs2 := [EFrameNext 0 101] in
  let evs3 := [EUpload (b "new") 120; EStatus 130 130] in
  let s2 := run show_q show_q boot
              (evs1 ++ set_event Video (b "jpg") 100 :: evs2) in
  let s3 := run show_q show_q s2 evs3 in
  b "jpg" <> []
  /\ Sorted Qle
       (set_times Video (evs1 ++ set_event Video (b "jpg") 100 :: evs2 ++ evs3))
  /\ payload Video (globals s3) <> None
  /\ (stamp Video (globals s2) <= stamp Video (globals s3))%Q.
Proof.
  intros evs1 evs2 evs3 s2 s3.
  assert (H1 : b "jpg" <> []) by (vm_compute; discriminate).
  assert (H2 : Sorted Qle
                 (set_times Video
                    (evs1 ++ set_event Video (b "jpg") 100 :: evs2 ++ evs3))).
  { vm_compute set_times.
    repeat constructor; unfold Qle; simpl; lia. }
  pose proof (slot_stays_set show_q show_q Video boot (b "jpg") 100
                evs1 evs2 evs3 130 130 H1) as H.
  split; [exact H1|]. split; [exact H2|].
  split; [exact (proj1 (proj2 H))|].
  exact (proj2 (proj2 (proj2 (proj2 (proj2 (proj2 H))))) H2).
Defined.

(** The timestamp part of C10 without a condition on the clock fails: a
    frame is uploaded at clock reading 100, the clock is set back, and a
    second frame is uploaded at reading 50. *)
Lemma timestamp_decreases_when_clock_steps_back :
  let s2 := run show_q show_q boot ([] ++ set_event Video (b "jpg") 100 :: [])
  in
  let s3 := run show_q show_q s2 [EUpload (b "new") 50] in
  b "jpg" <> []
  /\ payload Video (globals s2) = Some (b "jpg")
  /\ stamp Video (globals s2) = 100%Q
  /\ stamp Video (globals s3) = 50%Q
  /\ ~ (stamp Video (globals s2) <= stamp Video (globals s3))%Q.
Proof.
  intros s2 s3.
  split; [vm_compute; discriminate|].
  split; [reflexivity|]. split; [reflexivity|]. split; [reflexivity|].
  vm_compute. intros H. apply H. reflexivity.
Qed.

Lemma upload_is_streamed_while_fresh_witness :
  let before := [EStream] in
  let after := [EFrameNext 0 101; EUploadAudio (b "pcm") 102] in
  let g := globals (run show_q show_q boot
                      (before ++ set_event Video (b "jpg") 100 :: after)) in
  b "jpg" <> []
  /\ Forall (fun e => sets Video e = false) after
  /\ (video_output 105 g = frame_header ++ b "jpg" ++ CRLF
      <-> (105 - 100 < 10)%Q).
Proof.
  intros before after g.
  assert (H1 : b "jpg" <> []) by (vm_compute; discriminate).
  assert (H2 : Forall (fun e => sets Video e = false) after)
    by (repeat constructor).
  split; [exact H1|]. split; [exact H2|].
  exact (proj1
    (upload_is_streamed_while_fresh show_q show_q Video (b "jpg") 100 boot
       before after 105 105 H1 H2)).
Defined.

Lemma sessions_only_advance_witness :
  let s := run show_q show_q boot [EStream; EFrameNext 0 1] in
  let evs := [EFrameExit 0 GeneratorExit; EFrameNext 0 2] in
  sessions Video s !! 0%nat = Some Suspended
  /\ exists st',
       sessions Video (run show_q show_q s evs) !! 0%nat = Some st'
       /\ (rank Suspended <= rank st')%nat
       /\ (Suspended = Finished -> st' = Finished)
       /\ (Suspended <> Created -> st' <> Created).
Proof.
  intros s evs.
  assert (H : sessions Video s !! 0%nat = Some Suspended) by reflexivity.
  split; [exact H|].
  exact (sessions_only_advance show_q show_q Video s evs 0 Suspended H).
Defined.

Lemma status_offline_shows_whole_seconds_witness :
  payload Video both_at_100 = Some (b "jpg")
  /\ ((10 < 200 - frame_time both_at_100)%Q ->
      status_of Video (fst (status show_q 200 200 both_at_100))
      = "Camera offline (last frame "
          +:+ pretty (Qfloor (200 - frame_time both_at_100)) +:+ "s ago)"
      /\ Qfloor 10 <= Qfloor (200 - frame_time both_at_100)).
Proof.
  assert (H : payload Video both_at_100 = Some (b "jpg")) by reflexivity.
  split; [exact H|].
  exact (proj1
    (status_offline_shows_whole_seconds show_q Video both_at_100 (b "jpg")
       200 200 H)).
Defined.

Lemma audio_event_payload_is_base64_witness :
  current_audio both_at_100 = Some (b "pcm")
  /\ (101 - audio_time both_at_100 < 5)%Q
  /\ exists text : string,
       audio_output show_q 101 101 both_at_100
       = "data: {'audio': '" +:+ text +:+ "'}" +:+ LFLF
       /\ String.length text = (4 * ((length (b "pcm") + 2) / 3))%nat
       /\ Forall (fun c => In c (Base64.alphabet ++ [Base64.pad]))
            (list_byte_of_string text)
       /\ ~ In x0a (list_byte_of_string text)
       /\ ~ In x27 (list_byte_of_string text).
Proof.
  assert (H1 : current_audio both_at_100 = Some (b "pcm")) by reflexivity.
  assert (H2 : (101 - audio_time both_at_100 < 5)%Q) by reflexivity.
  split; [exact H1|]. split; [exact H2|].
  exact (audio_event_payload_is_base64 show_q both_at_100 (b "pcm")
           101 101 H1 H2).
Defined.

Lemma viewer_reads_little_endian_int16_witness :
  0 <= 254 < 256 /\ 0 <= 255 < 256 /\ -32768 <= -2 <= 32767
  /\ Viewer.signedSample (Viewer.sample 254 255) = -2
  /\ Viewer.signedSample
       (Viewer.sample (-2 mod 256) ((-2 / 256) mod 256)) = -2.
Proof.
  assert (H1 : 0 <= 254 < 256) by lia.
  assert (H2 : 0 <= 255 < 256) by lia.
  assert (H3 : -32768 <= -2 <= 32767) by lia.
  split; [exact H1|]. split; [exact H2|]. split; [exact H3|].
  exact (viewer_reads_little_endian_int16 254 255 (-2) H1 H2 H3).
Defined.
